(** * slackio: a reader / writer interface to a Slack channel

    A shallow embedding of [slackio/slackio.go] (both generations of the
    package that the file holds: the combined [Slack] type and the later
    [Reader] / [Writer] / [ReaderWriter] types built on
    [readerWriterCommon]) together with the properties the written
    specification states about it.

    What the package takes from elsewhere is modelled as follows.
    - [io.Pipe] (Go standard library): a synchronous in-memory pipe without
      internal buffering; each write blocks until reads have taken all of
      its bytes; closing either end is recorded once and never blocks.
    - [slacker] (the Slack client library): an API client given by the
      answers it gets ([APIClient], [Service]); a broker whose [Connect],
      [Publish] and [Close] answers are fields of the broker; an event whose
      [Message()] result is carried by the event.
    - [json.Unmarshal]: what it leaves in the target and the error it
      returns are an answer of the client ([Unmarshal]).
    - [errset.ErrSet]: a slice of errors whose [ReturnValue] is nil when
      every entry is nil and the slice itself otherwise. *)

From Stdlib Require Import Strings.String Strings.Byte Lists.List Arith Lia.
From stdpp Require Import base list strings.
Import ListNotations.

Local Open Scope string_scope.
Local Open Scope list_scope.

(** ** Errors *)

(** A Go [error] value.  [ErrSet] is [errset.ErrSet], a slice of errors
    (nil entries are kept in the slice). *)
#[local] Set Warnings "-register-all".
Inductive error : Type :=
| ErrString (msg : string)
| ErrSet (errs : list (option error)).
#[local] Set Warnings "register-all".

(** [io.ErrClosedPipe] and [io.EOF]. *)
Definition ErrClosedPipe : error := ErrString "io: read/write on closed pipe".
Definition EOF : error := ErrString "EOF".

(** A call either returns or panics; Go errors are ordinary return values. *)
Inductive outcome (A : Type) : Type :=
| Ret (a : A)
| Panic (why : error).
Arguments Ret {A} a.
Arguments Panic {A} why.

(** The runtime error of a nil pointer dereference. *)
Definition nilDeref : error :=
  ErrString "invalid memory address or nil pointer dereference".

(** ** io.Pipe *)

(** The shared [pipe] behind a [*PipeReader] and a [*PipeWriter]: the two
    once-only error slots.  The pipe is done as soon as one of them is set.
    It has no buffer: the bytes of a write in flight stay with the writing
    goroutine (see [goroutine]). *)
Record Pipe : Type := mkPipe {
  rerr : option error;
  werr : option error
}.

Definition newPipe : Pipe := {| rerr := None; werr := None |}.

Definition done (p : Pipe) : bool :=
  match rerr p, werr p with
  | None, None => false
  | _, _ => true
  end.

(** [onceError.Store]: the first stored error stays. *)
Definition onceStore (slot : option error) (err : error) : option error :=
  match slot with
  | Some e => Some e
  | None => Some err
  end.

(** [PipeReader.CloseWithError(err)]; [PipeReader.Close()] passes nil. *)
Definition closeRead (p : Pipe) (err : option error) : Pipe :=
  {| rerr := onceStore (rerr p) (default ErrClosedPipe err); werr := werr p |}.

(** [PipeWriter.CloseWithError(err)]; [PipeWriter.Close()] passes nil. *)
Definition closeWrite (p : Pipe) (err : option error) : Pipe :=
  {| rerr := rerr p; werr := onceStore (werr p) (default EOF err) |}.

(** The error a read gets from a done pipe. *)
Definition readCloseError (p : Pipe) : error :=
  match rerr p, werr p with
  | None, Some w => w
  | _, _ => ErrClosedPipe
  end.

(** The error a write gets from a done pipe. *)
Definition writeCloseError (p : Pipe) : error :=
  match werr p, rerr p with
  | None, Some r => r
  | _, _ => ErrClosedPipe
  end.

(** ** Events of the session *)

(** [slacker.RTMMessage]. *)
Record RTMMessage : Type := mkMessage {
  msg_Type : string;
  Text : string;
  Channel : string;
  User : string
}.

(** [slacker.RTMEvent]: its [Type] and what its [Message()] method returns,
    a possibly nil [*RTMMessage] and an error. *)
Record RTMEvent : Type := mkEvent {
  ev_Type : string;
  ev_Message : option RTMMessage * option error
}.

(** The zero value of [RTMEvent], which a receive on a closed channel
    yields. *)
Definition zeroEvent : RTMEvent :=
  {| ev_Type := EmptyString; ev_Message := (None, Some (ErrString "not a message")) |}.

(** The channel returned by [broker.Events()]: the events still to be
    delivered, in arrival order, and whether the channel has been closed. *)
Record EventChan : Type := mkChan {
  queue : list RTMEvent;
  closed : bool
}.

(** [<-ch]: the next event; on a closed and drained channel the zero value;
    [None] when the receive blocks. *)
Definition recv (ch : EventChan) : option (RTMEvent * EventChan) :=
  match queue ch with
  | e :: q => Some (e, {| queue := q; closed := closed ch |})
  | [] => if closed ch then Some (zeroEvent, ch) else None
  end.

(** ** The read path *)

(** The bytes [fmt.Fprintf(w, "%s\n", text)] hands to [w.Write]. *)
Definition line (text : string) : list byte :=
  list_byte_of_string text ++ [Byte.x0a].

(** Where the goroutine running [reader()] stands. *)
Inductive goroutine : Type :=
| Receiving                 (* at [event := <-broker.Events()] *)
| Writing (b : list byte)   (* inside [Fprintf]: [b] is not yet taken by a read *)
| Returned                  (* left the loop through [return] *)
| Panicked.                 (* nil pointer dereference *)

(** What one adapter's read path is made of: the event channel of its
    session, its pipe, its background goroutine, and (as a record of what
    happened) the bytes that [Read] calls have returned so far. *)
Record Sys : Type := mkSys {
  events : EventChan;
  conduit : Pipe;
  consumer : goroutine;
  readPath : list byte
}.

(** [PipeWriter.Write] entered with the bytes [b]: on a done pipe it fails
    at once, and the loop closes the pipe with that error and returns;
    otherwise the goroutine waits for reads. *)
Definition Fprintf (p : Pipe) (b : list byte) : Pipe * goroutine :=
  if done p
  then (closeWrite p (Some (writeCloseError p)), Returned)
  else (p, Writing b).

(** The body of the [for] loop of [Reader.reader] and of [Slack.reader]
    (the two are the same statement for statement) after the receive. *)
Definition reader_body (channelID selfUserID : string)
    (event : RTMEvent) (p : Pipe) : Pipe * goroutine :=
  if String.eqb (ev_Type event) "message" then
    let '(msg, err) := ev_Message event in
    let p := match err with
             | Some e => closeWrite p (Some e)
             | None => p
             end in
    match msg with
    | None => (p, Panicked)
    | Some msg =>
        if negb (String.eqb (Channel msg) channelID) then (p, Receiving)
        else if String.eqb (User msg) selfUserID then (p, Receiving)
        else Fprintf p (line (Text msg))
    end
  else (p, Receiving).

(** One step of the goroutine; [None] when it cannot move (blocked on the
    receive, blocked in the pipe write, or finished). *)
Definition reader_step (channelID selfUserID : string) (s : Sys) : option Sys :=
  match consumer s with
  | Receiving =>
      match recv (events s) with
      | None => None
      | Some (event, ch) =>
          let '(p, g) := reader_body channelID selfUserID event (conduit s) in
          Some {| events := ch; conduit := p; consumer := g;
                  readPath := readPath s |}
      end
  | Writing b =>
      if done (conduit s)
      then Some {| events := events s;
                   conduit := closeWrite (conduit s)
                                (Some (writeCloseError (conduit s)));
                   consumer := Returned;
                   readPath := readPath s |}
      else None
  | Returned => None
  | Panicked => None
  end.

(** [Reader.Read(p)] with [len(p) = n], which is [pipeReader.Read(p)]:
    [None] when the call blocks (no write in flight), or when the process
    is gone after a panic. *)
Definition Read (n : nat) (s : Sys) : option (Sys * (list byte * option error)) :=
  match consumer s with
  | Panicked => None
  | g =>
      if done (conduit s)
      then Some (s, ([], Some (readCloseError (conduit s))))
      else
        match g with
        | Writing b =>
            let nr := Nat.min n (length b) in
            let rest := drop nr b in
            Some ({| events := events s;
                     conduit := conduit s;
                     consumer := match rest with
                                 | [] => Receiving
                                 | _ :: _ => Writing rest
                                 end;
                     readPath := readPath s ++ take nr b |},
                  (take nr b, None))
        | _ => None
        end
  end.

(** A schedule interleaves steps of the goroutine with foreground reads.
    An action that cannot move leaves the system as it is. *)
Inductive action : Type :=
| Consumer
| ReadCall (n : nat).

Definition act (channelID selfUserID : string) (a : action) (s : Sys) : Sys :=
  match a with
  | Consumer => default s (reader_step channelID selfUserID s)
  | ReadCall n =>
      match Read n s with
      | Some (s', _) => s'
      | None => s
      end
  end.

Fixpoint exec (channelID selfUserID : string) (sched : list action) (s : Sys) : Sys :=
  match sched with
  | [] => s
  | a :: sched => exec channelID selfUserID sched (act channelID selfUserID a s)
  end.

(** [Reader.init] / [Slack.initRead]: a fresh pipe and the goroutine at the
    top of its loop, for a session that will deliver [evs]. *)
Definition init (evs : list RTMEvent) (chClosed : bool) : Sys :=
  {| events := {| queue := evs; closed := chClosed |};
     conduit := newPipe;
     consumer := Receiving;
     readPath := [] |}.

(** The read path as the specification words it: the text of each event
    that is of "message" kind, is on the bound channel and is from another
    user, each followed by one newline, in arrival order. *)
Definition accepted (channelID selfUserID : string) (e : RTMEvent) : option string :=
  if String.eqb (ev_Type e) "message" then
    match ev_Message e with
    | (Some m, None) =>
        if String.eqb (Channel m) channelID && negb (String.eqb (User m) selfUserID)
        then Some (Text m)
        else None
    | _ => None
    end
  else None.

Definition expected (channelID selfUserID : string) (evs : list RTMEvent) : list byte :=
  flat_map (fun e => match accepted channelID selfUserID e with
                     | Some text => line text
                     | None => []
                     end) evs.

(** Every "message" event of the sequence parses. *)
Definition parses (e : RTMEvent) : bool :=
  if String.eqb (ev_Type e) "message" then
    match ev_Message e with
    | (Some _, None) => true
    | _ => false
    end
  else true.

(** The schedule that lets the goroutine take each event and, when it
    writes, answers with one read large enough for the whole line. *)
Fixpoint drain (channelID selfUserID : string) (evs : list RTMEvent) : list action :=
  match evs with
  | [] => []
  | e :: evs =>
      Consumer ::
      match accepted channelID selfUserID e with
      | Some text => ReadCall (length (line text)) :: drain channelID selfUserID evs
      | None => drain channelID selfUserID evs
      end
  end.

(** The bytes of the write in flight. *)
Definition inflight (g : goroutine) : list byte :=
  match g with
  | Writing b => b
  | _ => []
  end.

(** While the conduit is open and every "message" event parses, the bytes
    read so far, the bytes in flight and the lines of the events still
    queued make up [total]. *)
Definition delivering (channelID selfUserID : string) (total : list byte) (s : Sys) : Prop :=
  done (conduit s) = false /\
  (consumer s = Receiving \/ exists b, consumer s = Writing b) /\
  forallb parses (queue (events s)) = true /\
  readPath s ++ inflight (consumer s) ++
    expected channelID selfUserID (queue (events s)) = total.

(** ** The session and the store *)

(** A pointer is an index into the store; a nil pointer is [None]. *)
Abbreviation ptr := nat.

(** [*slacker.RTMBroker]: the open session.  What the remote end answers is
    part of the broker: [publishAnswer] to a [Publish] (given the calls
    issued before and the number of [Close] calls so far), [closeAnswer k]
    to the [Close] issued after [k] earlier ones.  The broker records the
    calls issued on it. *)
Record RTMBroker : Type := mkBroker {
  connectAnswer : option error;
  sessionEvents : EventChan;
  publishAnswer : list RTMMessage -> nat -> RTMMessage -> option error;
  closeAnswer : nat -> option error;
  publishCalls : list RTMMessage;
  closeCalls : nat
}.

(** The broker after one more [Close], and after one more [Publish]. *)
Definition noteClose (br : RTMBroker) : RTMBroker :=
  {| connectAnswer := connectAnswer br;
     sessionEvents := sessionEvents br;
     publishAnswer := publishAnswer br;
     closeAnswer := closeAnswer br;
     publishCalls := publishCalls br;
     closeCalls := S (closeCalls br) |}.

Definition notePublish (br : RTMBroker) (m : RTMMessage) : RTMBroker :=
  {| connectAnswer := connectAnswer br;
     sessionEvents := sessionEvents br;
     publishAnswer := publishAnswer br;
     closeAnswer := closeAnswer br;
     publishCalls := publishCalls br ++ [m];
     closeCalls := closeCalls br |}.

(** The mutable objects that adapters share by pointer. *)
Record World : Type := mkWorld {
  brokers : list RTMBroker;
  pipes : list Pipe
}.

(** Calls thread the store and may panic. *)
Definition M (A : Type) : Type := World -> outcome (A * World).

Definition ret {A : Type} (a : A) : M A := fun w => Ret (a, w).

Definition bind {A B : Type} (c : M A) (k : A -> M B) : M B :=
  fun w =>
    match c w with
    | Ret (a, w') => k a w'
    | Panic why => Panic why
    end.

Definition panic {A : Type} (why : error) : M A := fun _ => Panic why.

Notation "x <- c ;; k" := (bind c (fun x => k))
  (at level 100, c at next level, right associativity).
Notation "c ;;; k" := (bind c (fun _ => k))
  (at level 100, right associativity).

(** A method call through a pointer: nil panics. *)
Definition withPipe (r : option ptr) (f : Pipe -> Pipe) : M (option error) :=
  fun w =>
    match r with
    | None => Panic nilDeref
    | Some i =>
        match pipes w !! i with
        | None => Panic nilDeref
        | Some p => Ret (None, {| brokers := brokers w; pipes := <[i := f p]> (pipes w) |})
        end
    end.

(** [PipeReader.Close] and [PipeWriter.Close]: always return nil. *)
Definition PipeReader_Close (r : option ptr) : M (option error) :=
  withPipe r (fun p => closeRead p None).

Definition PipeWriter_Close (r : option ptr) : M (option error) :=
  withPipe r (fun p => closeWrite p None).

(** [io.Pipe()]: both ends point at one new pipe. *)
Definition io_Pipe : M (option ptr * option ptr) :=
  fun w =>
    let i := length (pipes w) in
    Ret ((Some i, Some i), {| brokers := brokers w; pipes := pipes w ++ [newPipe] |}).

(** [RTMBroker.Close]. *)
Definition RTMBroker_Close (b : option ptr) : M (option error) :=
  fun w =>
    match b with
    | None => Panic nilDeref
    | Some i =>
        match brokers w !! i with
        | None => Panic nilDeref
        | Some br =>
            Ret (closeAnswer br (closeCalls br),
                 {| brokers := <[i := noteClose br]> (brokers w);
                    pipes := pipes w |})
        end
    end.

(** [RTMBroker.Publish]. *)
Definition RTMBroker_Publish (b : option ptr) (m : RTMMessage) : M (option error) :=
  fun w =>
    match b with
    | None => Panic nilDeref
    | Some i =>
        match brokers w !! i with
        | None => Panic nilDeref
        | Some br =>
            Ret (publishAnswer br (publishCalls br) (closeCalls br) m,
                 {| brokers := <[i := notePublish br m]> (brokers w);
                    pipes := pipes w |})
        end
    end.

(** [slacker.NewRTMBroker(rtmStart)]: the session that [RTMStart] described,
    with no call issued on it yet. *)
Definition NewRTMBroker (rtmStart : RTMBroker) : M (option ptr) :=
  fun w =>
    Ret (Some (length (brokers w)),
         {| brokers := brokers w ++ [rtmStart]; pipes := pipes w |}).

(** [RTMBroker.Connect]. *)
Definition RTMBroker_Connect (b : option ptr) : M (option error) :=
  fun w =>
    match b with
    | None => Panic nilDeref
    | Some i =>
        match brokers w !! i with
        | None => Panic nilDeref
        | Some br => Ret (connectAnswer br, w)
        end
    end.

(** ** The API client *)

(** An entry of [ChannelsList()]. *)
Record SlackChannel : Type := mkChannel {
  Name : string;
  ID : string
}.

(** [*slacker.APIClient] as the answers it gets: [ChannelsList()],
    [RunMethod(method)], [RTMStart()].  [Unmarshal] is
    [json.Unmarshal(authBuf, &auth)] on a zero [auth]: the [UserID] the
    call leaves in [auth], and its error. *)
Record APIClient : Type := mkClient {
  ChannelsList : list SlackChannel + error;
  RunMethod : string -> list byte + error;
  Unmarshal : list byte -> string * option error;
  RTMStart : RTMBroker + error
}.

(** [slacker.NewAPIClient(token, url)]. *)
Definition Service : Type := string -> string -> APIClient.

(** The [for ... range channels] loop, started with the empty
    [channelID]: the [ID] of the first entry with the name, the empty
    string when the loop runs out. *)
Fixpoint rangeChannels (channels : list SlackChannel) (channelName : string) : string :=
  match channels with
  | [] => EmptyString
  | channel :: channels =>
      if String.eqb (Name channel) channelName
      then ID channel
      else rangeChannels channels channelName
  end.

(** [fmt.Errorf("cannot find channel %s", channelName)]. *)
Definition cannotFindChannel (channelName : string) : error :=
  ErrString ("cannot find channel " ++ channelName).

(** ** The later generation: readerWriterCommon, Reader, Writer, ReaderWriter *)

(** [readerWriterCommon].  Nothing assigns to its fields once [newIface]
    has returned, so a [*readerWriterCommon] is modelled by its value (nil
    by [None]); the session behind [broker] is mutable and stays in the
    store, so adapters holding the same binding share one session. *)
Record readerWriterCommon : Type := mkCommon {
  channelID : string;
  selfUserID : string;
  broker : option ptr
}.

Definition newIface (slack : Service) (url token channelName : string)
    : M (option readerWriterCommon * option error) :=
  let client := slack token url in
  match ChannelsList client with
  | inr err => ret (None, Some err)
  | inl channels =>
      let id := rangeChannels channels channelName in
      if String.eqb id EmptyString
      then ret (None, Some (cannotFindChannel channelName))
      else
        match RunMethod client "auth.test" with
        | inr err => ret (None, Some err)
        | inl authBuf =>
            let '(UserID, _) := Unmarshal client authBuf in
            match RTMStart client with
            | inr err => ret (None, Some err)
            | inl rtmStart =>
                b <- NewRTMBroker rtmStart ;;
                err <- RTMBroker_Connect b ;;
                match err with
                | Some err => ret (None, Some err)
                | None =>
                    ret (Some {| channelID := id; selfUserID := UserID; broker := b |},
                         None)
                end
            end
        end
  end.

(** [readerWriterCommon.Close]. *)
Definition readerWriterCommon_Close (s : option readerWriterCommon) : M (option error) :=
  match s with
  | None => panic nilDeref
  | Some s => RTMBroker_Close (broker s)
  end.

Record Reader : Type := mkReader {
  r_common : option readerWriterCommon;
  pipeReader : option ptr;
  pipeWriter : option ptr
}.

(** [Reader.init]; the goroutine it starts is [reader_step] on the
    read path of this adapter. *)
Definition Reader_init (s : Reader) : M Reader :=
  pp <- io_Pipe ;;
  ret {| r_common := r_common s; pipeReader := fst pp; pipeWriter := snd pp |}.

Definition NewReader (slack : Service) (url token channel : string)
    : M (option Reader * option error) :=
  res <- newIface slack url token channel ;;
  match res with
  | (_, Some err) => ret (None, Some err)
  | (common, None) =>
      s <- Reader_init {| r_common := common; pipeReader := None; pipeWriter := None |} ;;
      ret (Some s, None)
  end.

Definition Reader_reader (s : readerWriterCommon) : Sys -> option Sys :=
  reader_step (channelID s) (selfUserID s).

Definition Reader_Close (s : Reader) : M (option error) :=
  PipeReader_Close (pipeReader s) ;;;
  PipeWriter_Close (pipeWriter s) ;;;
  readerWriterCommon_Close (r_common s).

Record Writer : Type := mkWriter {
  w_common : option readerWriterCommon
}.

Definition NewWriter (slack : Service) (url token channel : string)
    : M (option Writer * option error) :=
  res <- newIface slack url token channel ;;
  match res with
  | (_, Some err) => ret (None, Some err)
  | (common, None) => ret (Some {| w_common := common |}, None)
  end.

(** The event [Write] publishes for the payload [p]. *)
Definition outgoing (channelID : string) (p : list byte) : RTMMessage :=
  {| msg_Type := "message";
     Text := string_of_list_byte p;
     Channel := channelID;
     User := EmptyString |}.

Definition Writer_Write (s : Writer) (p : list byte) : M (nat * option error) :=
  match w_common s with
  | None => panic nilDeref
  | Some common =>
      err <- RTMBroker_Publish (broker common) (outgoing (channelID common) p) ;;
      match err with
      | Some err => ret (0, Some err)
      | None => ret (length p, None)
      end
  end.

Definition Writer_Close (s : Writer) : M (option error) :=
  readerWriterCommon_Close (w_common s).

Record ReaderWriter : Type := mkReaderWriter {
  rw_common : option readerWriterCommon;
  rw_Reader : Reader;
  rw_Writer : Writer
}.

Definition NewReaderWriter (slack : Service) (url token channel : string)
    : M (option ReaderWriter * option error) :=
  res <- newIface slack url token channel ;;
  match res with
  | (_, Some err) => ret (None, Some err)
  | (common, None) =>
      r <- Reader_init {| r_common := common; pipeReader := None; pipeWriter := None |} ;;
      ret (Some {| rw_common := common;
                   rw_Reader := r;
                   rw_Writer := {| w_common := common |} |}, None)
  end.

(** [errset.ErrSet.ReturnValue]: nil when every entry is nil, the set
    otherwise. *)
Definition ReturnValue (errs : list (option error)) : option error :=
  if forallb (fun e => match e with None => true | Some _ => false end) errs
  then None
  else Some (ErrSet errs).

Definition ReaderWriter_Close (s : ReaderWriter) : M (option error) :=
  e1 <- Reader_Close (rw_Reader s) ;;
  e2 <- readerWriterCommon_Close (rw_common s) ;;
  ret (ReturnValue [e1; e2]).

(** ** The first generation: Slack *)

(** [Slack]; the two write-pipe fields are never assigned or read. *)
Record Slack : Type := mkSlack {
  URL : string;
  Token : string;
  sl_Channel : string;
  sl_channelID : string;
  sl_selfUserID : string;
  sl_broker : option ptr;
  readPipeReader : option ptr;
  readPipeWriter : option ptr
}.

Definition set_channelID (s : Slack) (id : string) : Slack :=
  {| URL := URL s; Token := Token s; sl_Channel := sl_Channel s;
     sl_channelID := id; sl_selfUserID := sl_selfUserID s;
     sl_broker := sl_broker s;
     readPipeReader := readPipeReader s; readPipeWriter := readPipeWriter s |}.

Definition set_selfUserID (s : Slack) (id : string) : Slack :=
  {| URL := URL s; Token := Token s; sl_Channel := sl_Channel s;
     sl_channelID := sl_channelID s; sl_selfUserID := id;
     sl_broker := sl_broker s;
     readPipeReader := readPipeReader s; readPipeWriter := readPipeWriter s |}.

Definition set_broker (s : Slack) (b : option ptr) : Slack :=
  {| URL := URL s; Token := Token s; sl_Channel := sl_Channel s;
     sl_channelID := sl_channelID s; sl_selfUserID := sl_selfUserID s;
     sl_broker := b;
     readPipeReader := readPipeReader s; readPipeWriter := readPipeWriter s |}.

Definition set_readPipe (s : Slack) (pp : option ptr * option ptr) : Slack :=
  {| URL := URL s; Token := Token s; sl_Channel := sl_Channel s;
     sl_channelID := sl_channelID s; sl_selfUserID := sl_selfUserID s;
     sl_broker := sl_broker s;
     readPipeReader := fst pp; readPipeWriter := snd pp |}.

(** [Slack.init]: the receiver is updated in place, so the call returns it
    next to the error. *)
Definition Slack_init (slack : Service) (s : Slack) : M (Slack * option error) :=
  match sl_broker s with
  | Some _ => ret (s, None)
  | None =>
      let client := slack (Token s) (URL s) in
      let s := set_channelID s EmptyString in
      match ChannelsList client with
      | inr err => ret (s, Some err)
      | inl channels =>
          let s := set_channelID s (rangeChannels channels (sl_Channel s)) in
          if String.eqb (sl_channelID s) EmptyString
          then ret (s, Some (cannotFindChannel (sl_Channel s)))
          else
            match RunMethod client "auth.test" with
            | inr err => panic err
            | inl authBuf =>
                let '(UserID, _) := Unmarshal client authBuf in
                match RTMStart client with
                | inr err => ret (s, Some err)
                | inl rtmStart =>
                    let s := set_selfUserID s UserID in
                    b <- NewRTMBroker rtmStart ;;
                    let s := set_broker s b in
                    err <- RTMBroker_Connect (sl_broker s) ;;
                    match err with
                    | Some err => ret (s, Some err)
                    | None => ret (s, None)
                    end
                end
            end
      end
  end.

(** [New]. *)
Definition New (slack : Service) (url token channel : string)
    : M (option Slack * option error) :=
  res <- Slack_init slack
           {| URL := url; Token := token; sl_Channel := channel;
              sl_channelID := EmptyString; sl_selfUserID := EmptyString;
              sl_broker := None;
              readPipeReader := None; readPipeWriter := None |} ;;
  match res with
  | (_, Some err) => ret (None, Some err)
  | (s, None) => ret (Some s, None)
  end.

Definition Slack_initWrite (slack : Service) (s : Slack) : M (Slack * option error) :=
  Slack_init slack s.

(** [Slack.initRead]; the goroutine it starts is [reader_step] on the read
    path of this adapter. *)
Definition Slack_initRead (slack : Service) (s : Slack) : M (Slack * option error) :=
  res <- Slack_init slack s ;;
  match res with
  | (s, Some err) => ret (s, Some err)
  | (s, None) =>
      match readPipeWriter s with
      | None => pp <- io_Pipe ;; ret (set_readPipe s pp, None)
      | Some _ => ret (s, None)
      end
  end.

Definition Slack_reader (s : Slack) : Sys -> option Sys :=
  reader_step (sl_channelID s) (sl_selfUserID s).

Definition Slack_Write (slack : Service) (s : Slack) (p : list byte)
    : M (Slack * (nat * option error)) :=
  res <- Slack_initWrite slack s ;;
  match res with
  | (s, Some err) => ret (s, (0, Some err))
  | (s, None) =>
      err <- RTMBroker_Publish (sl_broker s) (outgoing (sl_channelID s) p) ;;
      match err with
      | Some err => ret (s, (0, Some err))
      | None => ret (s, (length p, None))
      end
  end.

Definition Slack_Close (s : Slack) : M (option error) :=
  match readPipeReader s with
  | Some _ => PipeReader_Close (readPipeReader s)
  | None => ret None
  end ;;;
  match readPipeWriter s with
  | Some _ => PipeWriter_Close (readPipeWriter s)
  | None => ret None
  end ;;;
  match sl_broker s with
  | Some _ => RTMBroker_Close (sl_broker s)
  | None => ret None
  end ;;;
  ret None.

(** ** The adapter variants *)

Inductive adapter : Type :=
| ReadOnly (s : Reader)
| WriteOnly (s : Writer)
| Duplex (s : ReaderWriter)
| Combined (s : Slack).

Definition Close (a : adapter) : M (option error) :=
  match a with
  | ReadOnly s => Reader_Close s
  | WriteOnly s => Writer_Close s
  | Duplex s => ReaderWriter_Close s
  | Combined s => Slack_Close s
  end.

(** The session an adapter is bound to. *)
Definition session (a : adapter) : option ptr :=
  match a with
  | ReadOnly s => r_common s ≫= broker
  | WriteOnly s => w_common s ≫= broker
  | Duplex s => rw_common s ≫= broker
  | Combined s => sl_broker s
  end.

(** ** Closing twice *)

(** The read end, the write end of the pipe behind [r] is closed. *)
Definition rdone (w : World) (r : option ptr) : Prop :=
  exists i p, r = Some i /\ pipes w !! i = Some p /\ is_Some (rerr p).

Definition wdone (w : World) (r : option ptr) : Prop :=
  exists i p, r = Some i /\ pipes w !! i = Some p /\ is_Some (werr p).

(** The session behind [b] has been closed at least once. *)
Definition wasClosed (w : World) (b : option ptr) : Prop :=
  exists i br, b = Some i /\ brokers w !! i = Some br /\ 1 <= closeCalls br.

(** [e] is what a session of [w] that has been closed already answers to
    a later [Close]. *)
Definition closedAnswer (w : World) (e : option error) : Prop :=
  exists i br k,
    brokers w !! i = Some br /\ 1 <= closeCalls br /\ closeCalls br <= k /\
    e = closeAnswer br k.

(** An error value that reports nothing but closes of sessions that were
    closed already: nil, such an answer, or the [ErrSet] of two of them. *)
Inductive alreadyClosedOnly (w : World) : option error -> Prop :=
| aco_nil : alreadyClosedOnly w None
| aco_answer (e : option error) :
    closedAnswer w e -> alreadyClosedOnly w e
| aco_set (a b : option error) :
    closedAnswer w a -> closedAnswer w b ->
    alreadyClosedOnly w (ReturnValue [a; b]).

(** ** Closing while the read path runs *)

(** What [Reader.Close] and [Slack.Close] do to the adapter's pipe:
    [pipeReader.Close()], then [pipeWriter.Close()]. *)
Definition closedConduit (p : Pipe) : Pipe :=
  closeWrite (closeRead p None) None.

(** The read path of an adapter at the moment its close has closed the
    pipe; the goroutine is where it was. *)
Definition closeReadPath (s : Sys) : Sys :=
  {| events := events s;
     conduit := closedConduit (conduit s);
     consumer := consumer s;
     readPath := readPath s |}.

(** The two pipe closes of [Reader.Close] one at a time, on the read path
    of the adapter: the goroutine may run between them. *)
Definition closeReadEnd (s : Sys) : Sys :=
  {| events := events s;
     conduit := closeRead (conduit s) None;
     consumer := consumer s;
     readPath := readPath s |}.

Definition closeWriteEnd (s : Sys) : Sys :=
  {| events := events s;
     conduit := closeWrite (conduit s) None;
     consumer := consumer s;
     readPath := readPath s |}.

(** The [Slack] that holds the binding [c]. *)
Definition slackOf (url token channel : string) (c : readerWriterCommon) : Slack :=
  {| URL := url; Token := token; sl_Channel := channel;
     sl_channelID := channelID c; sl_selfUserID := selfUserID c;
     sl_broker := broker c;
     readPipeReader := None; readPipeWriter := None |}.

(** Construction reaches the identity lookup (the channels were listed and
    the scan found a non-empty identifier) and [auth.test] fails with
    [err]. *)
Definition identityLookupFails (client : APIClient) (channelName : string)
    (err : error) : Prop :=
  exists channels,
    ChannelsList client = inl channels /\
    rangeChannels channels channelName <> EmptyString /\
    RunMethod client "auth.test" = inr err.

(** The event by which a session hands a published message, posted by
    [user], to the adapters that listen. *)
Definition posted (m : RTMMessage) (user : string) : RTMEvent :=
  {| ev_Type := msg_Type m;
     ev_Message := (Some {| msg_Type := msg_Type m; Text := Text m;
                            Channel := Channel m; User := user |}, None) |}.

(** A "message" event with the given text, channel and user. *)
Definition messageEvent (text channel user : string) : RTMEvent :=
  {| ev_Type := "message";
     ev_Message := (Some {| msg_Type := "message"; Text := text;
                            Channel := channel; User := user |}, None) |}.

(** The one-character string holding a newline. *)
Definition newline : string := String (Ascii.ascii_of_byte Byte.x0a) EmptyString.

(** ** The command line tool *)

(** The three mode flags of [main]: [-tee], [-read], [-write]. *)
Record Flags : Type := mkFlags {
  doTee : bool;
  doRead : bool;
  doWrite : bool
}.

(** The two adjustments [main] makes after [flag.Parse()]. *)
Definition modes (f : Flags) : Flags :=
  let f := if negb (doRead f) && negb (doWrite f)
           then {| doTee := doTee f; doRead := true; doWrite := true |}
           else f in
  if doTee f
  then {| doTee := doTee f; doRead := false; doWrite := true |}
  else f.

(** The streams [main] connects. *)
Inductive handle : Type :=
| theSlack
| os_Stdin
| os_Stdout
| os_Stderr
| TeeReader (r w : handle).

(** [io.Copy(dst, src)], run in the foreground or by [go]. *)
Inductive copy : Type :=
| io_Copy (dst src : handle)
| go_io_Copy (dst src : handle).

(** [exec.Cmd] as far as [main] sets it. *)
Record Cmd : Type := mkCmd {
  cmd_Stdout : handle;
  cmd_Stderr : handle;
  cmd_Stdin : handle
}.

Definition stdinOf (f : Flags) : handle :=
  if doTee f then TeeReader os_Stdin os_Stdout else os_Stdin.

(** [main] after the adapter is built: with no arguments the copies it
    runs, otherwise the command it runs with its streams. *)
Definition main_streams (flags : Flags) (args : list string) : list copy + Cmd :=
  let f := modes flags in
  let stdin := stdinOf f in
  match args with
  | [] =>
      inl (if doWrite f && doRead f
           then [go_io_Copy os_Stdout theSlack; io_Copy theSlack stdin]
           else if doWrite f then [io_Copy theSlack stdin]
           else if doRead f then [io_Copy os_Stdout theSlack]
           else [])
  | _ :: _ =>
      inr {| cmd_Stdout := if doWrite f then theSlack else os_Stdout;
             cmd_Stderr := if doWrite f then theSlack else os_Stderr;
             cmd_Stdin := if doRead f then theSlack else stdin |}
  end.

(** ** Sample data

    The scenario of the specification: the channel "general" has the
    identifier "general-id" and the adapter is the user "U1". *)

Definition helloFromU2 : RTMEvent :=
  {| ev_Type := "message";
     ev_Message := (Some {| msg_Type := "message"; Text := "hello";
                            Channel := "general-id"; User := "U2" |}, None) |}.

Definition byeFromU3 : RTMEvent :=
  {| ev_Type := "message";
     ev_Message := (Some {| msg_Type := "message"; Text := "bye";
                            Channel := "general-id"; User := "U3" |}, None) |}.

Definition ignoredFromSelf : RTMEvent :=
  {| ev_Type := "message";
     ev_Message := (Some {| msg_Type := "message"; Text := "ignored";
                            Channel := "general-id"; User := "U1" |}, None) |}.

Definition fromElsewhere : RTMEvent :=
  {| ev_Type := "message";
     ev_Message := (Some {| msg_Type := "message"; Text := "lunch";
                            Channel := "random-id"; User := "U2" |}, None) |}.

Definition presenceChange : RTMEvent :=
  {| ev_Type := "presence_change";
     ev_Message := (None, Some (ErrString "not a message")) |}.

Definition parseError : error :=
  ErrString "json: cannot unmarshal number into Go struct field of type string".

(** A "message" event whose payload does not parse; [msg] is the pointer
    that [Message()] returns next to the error. *)
Definition malformed (msg : option RTMMessage) : RTMEvent :=
  {| ev_Type := "message"; ev_Message := (msg, Some parseError) |}.

Definition zeroMessage : RTMMessage :=
  {| msg_Type := EmptyString; Text := EmptyString;
     Channel := EmptyString; User := EmptyString |}.

Definition sampleEvents : list RTMEvent :=
  [presenceChange; helloFromU2; ignoredFromSelf; fromElsewhere; byeFromU3].

Definition useOfClosed : error := ErrString "use of closed network connection".

(** A session that delivers nothing more, accepts every [Publish], and
    answers the first [Close] with nil and every later one with
    [useOfClosed]. *)
Definition sampleSession : RTMBroker :=
  {| connectAnswer := None;
     sessionEvents := {| queue := []; closed := false |};
     publishAnswer := fun _ _ _ => None;
     closeAnswer := fun k => match k with 0 => None | S _ => Some useOfClosed end;
     publishCalls := [];
     closeCalls := 0 |}.

Definition sampleChannels : list SlackChannel :=
  [ {| Name := "random"; ID := "random-id" |};
    {| Name := "general"; ID := "general-id" |};
    {| Name := "general"; ID := "second-id" |} ].

Definition sampleClient : APIClient :=
  {| ChannelsList := inl sampleChannels;
     RunMethod := fun _ => inl (list_byte_of_string "{user_id:U1}");
     Unmarshal := fun _ => ("U1", None);
     RTMStart := inl sampleSession |}.

Definition authError : error := ErrString "invalid_auth".

(** The same service when [auth.test] fails. *)
Definition authDown : APIClient :=
  {| ChannelsList := inl sampleChannels;
     RunMethod := fun _ => inr authError;
     Unmarshal := fun _ => ("U1", None);
     RTMStart := inl sampleSession |}.

(** The same service when the body of [auth.test] does not decode. *)
Definition authGarbled : APIClient :=
  {| ChannelsList := inl sampleChannels;
     RunMethod := fun _ => inl (list_byte_of_string "<html>");
     Unmarshal := fun _ => (EmptyString, Some (ErrString "invalid character"));
     RTMStart := inl sampleSession |}.

Definition emptyWorld : World := {| brokers := []; pipes := [] |}.

(** The store and the adapters that the constructors build on
    [sampleClient]. *)
Definition sampleCommon : readerWriterCommon :=
  {| channelID := "general-id"; selfUserID := "U1"; broker := Some 0 |}.

Definition sampleWorld : World :=
  {| brokers := [sampleSession]; pipes := [newPipe] |}.

Definition sampleReader : Reader :=
  {| r_common := Some sampleCommon; pipeReader := Some 0; pipeWriter := Some 0 |}.

Definition sampleReaderWriter : ReaderWriter :=
  {| rw_common := Some sampleCommon;
     rw_Reader := sampleReader;
     rw_Writer := {| w_common := Some sampleCommon |} |}.

(** The same service when the connection cannot be opened. *)
Definition connectError : error := ErrString "websocket: bad handshake".

Definition unconnected : RTMBroker :=
  {| connectAnswer := Some connectError;
     sessionEvents := {| queue := []; closed := false |};
     publishAnswer := fun _ _ _ => None;
     closeAnswer := fun _ => None;
     publishCalls := [];
     closeCalls := 0 |}.

Definition connectDown : APIClient :=
  {| ChannelsList := inl sampleChannels;
     RunMethod := fun _ => inl (list_byte_of_string "{user_id:U1}");
     Unmarshal := fun _ => ("U1", None);
     RTMStart := inl unconnected |}.

(** A [Slack] value filled in by hand and not yet initialised. *)
Definition literalSlack : Slack :=
  {| URL := EmptyString; Token := "token"; sl_Channel := "general";
     sl_channelID := EmptyString; sl_selfUserID := EmptyString;
     sl_broker := None;
     readPipeReader := None; readPipeWriter := None |}.

(** * Properties *)

(** ** The pipe *)

Lemma done_newPipe (p : Pipe) : done p = false -> p = newPipe.
Proof. destruct p as [[r|] [w|]]; cbn; intros H; try discriminate H; reflexivity. Qed.

Lemma done_closeWrite (p : Pipe) (err : option error) : done (closeWrite p err) = true.
Proof. destruct p as [[r|] [w|]]; reflexivity. Qed.

Lemma done_closeRead (p : Pipe) (err : option error) : done (closeRead p err) = true.
Proof. destruct p as [[r|] [w|]]; reflexivity. Qed.

Lemma werr_closeWrite_kept (p : Pipe) (err : option error) (e : error) :
  werr p = Some e -> werr (closeWrite p err) = Some e.
Proof. intros H. cbn. rewrite H. reflexivity. Qed.

Lemma closeRead_again (p : Pipe) (e1 e2 : option error) :
  closeRead (closeRead p e1) e2 = closeRead p e1.
Proof. destruct p as [[r|] w]; reflexivity. Qed.

Lemma closeWrite_again (p : Pipe) (e1 e2 : option error) :
  closeWrite (closeWrite p e1) e2 = closeWrite p e1.
Proof. destruct p as [r [w|]]; reflexivity. Qed.

Lemma closeRead_closeWrite_again (p : Pipe) (e1 e2 e3 : option error) :
  closeRead (closeWrite (closeRead p e1) e2) e3 = closeWrite (closeRead p e1) e2.
Proof. destruct p as [[r|] w]; reflexivity. Qed.

(** ** The read path *)

Section ReadPath.

Variables channelID selfUserID : string.

Local Abbreviation step := (reader_step channelID selfUserID).
Local Abbreviation run := (exec channelID selfUserID).
Local Abbreviation perform := (act channelID selfUserID).

Lemma exec_app (s1 s2 : list action) (s : Sys) :
  run (s1 ++ s2) s = run s2 (run s1 s).
Proof. revert s. induction s1 as [|a s1 IH]; intros s; cbn; [reflexivity|apply IH]. Qed.

(** The loop body never opens a pipe again and never touches a set
    write-side error. *)
Lemma reader_body_done (event : RTMEvent) (p : Pipe) :
  done p = true -> done (fst (reader_body channelID selfUserID event p)) = true.
Proof.
  intros Hd. unfold reader_body, Fprintf.
  destruct (String.eqb (ev_Type event) "message"); [|exact Hd].
  destruct (ev_Message event) as [msg err].
  assert (Hd' : done (match err with
                      | Some e => closeWrite p (Some e)
                      | None => p
                      end) = true)
    by (destruct err; [apply done_closeWrite|exact Hd]).
  destruct msg as [m|]; [|exact Hd'].
  destruct (negb (String.eqb (Channel m) channelID)); [exact Hd'|].
  destruct (String.eqb (User m) selfUserID); [exact Hd'|].
  rewrite Hd'. apply done_closeWrite.
Qed.

Lemma reader_body_werr (event : RTMEvent) (p : Pipe) (e : error) :
  werr p = Some e -> werr (fst (reader_body channelID selfUserID event p)) = Some e.
Proof.
  intros Hw. unfold reader_body, Fprintf.
  destruct (String.eqb (ev_Type event) "message"); [|exact Hw].
  destruct (ev_Message event) as [msg err].
  assert (Hw' : werr (match err with
                      | Some e => closeWrite p (Some e)
                      | None => p
                      end) = Some e)
    by (destruct err; [apply werr_closeWrite_kept|]; exact Hw).
  destruct msg as [m|]; [|exact Hw'].
  destruct (negb (String.eqb (Channel m) channelID)); [exact Hw'|].
  destruct (String.eqb (User m) selfUserID); [exact Hw'|].
  destruct (done _); [apply werr_closeWrite_kept|]; exact Hw'.
Qed.

(** Once the conduit is done, no action adds a byte to the read path, and
    the conduit stays done. *)
Lemma act_done (a : action) (s : Sys) :
  done (conduit s) = true ->
  done (conduit (perform a s)) = true /\ readPath (perform a s) = readPath s.
Proof.
  intros Hd. destruct a as [|n]; cbn.
  - unfold reader_step. destruct (consumer s) eqn:Hc; cbn; auto.
    + destruct (recv (events s)) as [[event ch]|]; cbn; auto.
      pose proof (reader_body_done event (conduit s) Hd) as Hb.
      destruct (reader_body channelID selfUserID event (conduit s)) as [p g].
      cbn in *. auto.
    + rewrite Hd. cbn. split; [apply done_closeWrite|reflexivity].
  - unfold Read. destruct (consumer s); rewrite ?Hd; cbn; auto.
Qed.

Lemma exec_done (sched : list action) (s : Sys) :
  done (conduit s) = true ->
  done (conduit (run sched s)) = true /\ readPath (run sched s) = readPath s.
Proof.
  revert s. induction sched as [|a sched IH]; intros s Hd; cbn; [auto|].
  destruct (act_done a s Hd) as [Hd' Hr].
  destruct (IH _ Hd') as [Hd'' Hr']. split; [exact Hd''|congruence].
Qed.

Lemma act_werr (a : action) (s : Sys) (e : error) :
  werr (conduit s) = Some e -> werr (conduit (perform a s)) = Some e.
Proof.
  intros Hw. destruct a as [|n]; cbn.
  - unfold reader_step. destruct (consumer s); cbn; auto.
    + destruct (recv (events s)) as [[event ch]|]; cbn; auto.
      pose proof (reader_body_werr event (conduit s) e Hw) as Hb.
      destruct (reader_body channelID selfUserID event (conduit s)) as [p g].
      cbn in *. auto.
    + destruct (done (conduit s)); cbn; [rewrite Hw|]; auto.
  - unfold Read.
    destruct (consumer s); destruct (done (conduit s)); cbn; auto.
Qed.

Lemma exec_werr (sched : list action) (s : Sys) (e : error) :
  werr (conduit s) = Some e -> werr (conduit (run sched s)) = Some e.
Proof.
  revert s. induction sched as [|a sched IH]; intros s Hw; cbn; [auto|].
  apply IH, act_werr, Hw.
Qed.

(** After a panic the process is gone: nothing moves. *)
Lemma act_panicked (a : action) (s : Sys) :
  consumer s = Panicked -> perform a s = s.
Proof.
  intros Hc. destruct a; cbn; unfold reader_step, Read; rewrite Hc; reflexivity.
Qed.

Lemma exec_panicked (sched : list action) (s : Sys) :
  consumer s = Panicked -> run sched s = s.
Proof.
  revert s. induction sched as [|a sched IH]; intros s Hc; cbn; [reflexivity|].
  rewrite act_panicked by exact Hc. apply IH, Hc.
Qed.

(** A goroutine that cannot move stays where it is while only it is
    scheduled. *)
Lemma exec_blocked (n : nat) (s : Sys) :
  step s = None -> run (repeat Consumer n) s = s.
Proof.
  intros Hb. induction n as [|n IH]; cbn; [reflexivity|].
  rewrite Hb. cbn. exact IH.
Qed.

Lemma exec_fixed (sched : list action) (s : Sys) :
  (forall a, perform a s = s) -> run sched s = s.
Proof.
  intros Hf. induction sched as [|a sched IH]; cbn; [reflexivity|].
  rewrite Hf. exact IH.
Qed.

End ReadPath.

(** ** Delivery on the read path *)

Section Delivery.

Variables channelID selfUserID : string.

Local Abbreviation step := (reader_step channelID selfUserID).
Local Abbreviation run := (exec channelID selfUserID).
Local Abbreviation perform := (act channelID selfUserID).
Local Abbreviation want := (expected channelID selfUserID).
Local Abbreviation delivering := (delivering channelID selfUserID).

Lemma expected_cons (e : RTMEvent) (q : list RTMEvent) :
  want (e :: q) =
  match accepted channelID selfUserID e with
  | Some text => line text
  | None => []
  end ++ want q.
Proof. reflexivity. Qed.

(** What the loop body does with an event that parses, on an open pipe. *)
Lemma reader_body_parsed (e : RTMEvent) :
  parses e = true ->
  reader_body channelID selfUserID e newPipe =
  (newPipe, match accepted channelID selfUserID e with
            | Some text => Writing (line text)
            | None => Receiving
            end).
Proof.
  unfold parses, reader_body, accepted, Fprintf.
  destruct (String.eqb (ev_Type e) "message"); [|reflexivity].
  destruct (ev_Message e) as [[m|] [err|]]; try discriminate. intros _.
  destruct (String.eqb (Channel m) channelID); cbn; [|reflexivity].
  destruct (String.eqb (User m) selfUserID); reflexivity.
Qed.

Lemma delivering_act (total : list byte) (a : action) (s : Sys) :
  delivering total s -> delivering total (perform a s).
Proof.
  intros (Hd & Hc & Hp & Ht).
  destruct s as [[q cl] p g out].
  cbn [events conduit consumer readPath queue closed] in *.
  apply done_newPipe in Hd. subst p.
  destruct a as [|n]; cbn.
  - unfold reader_step, recv; cbn.
    destruct Hc as [->|[b ->]]; cbn.
    + destruct q as [|e q]; cbn.
      * destruct cl; cbn; repeat split; auto.
      * cbn in Hp. apply andb_prop in Hp as [Hpe Hpq].
        rewrite (reader_body_parsed e Hpe). cbn.
        rewrite expected_cons in Ht.
        destruct (accepted channelID selfUserID e) as [text|]; cbn in *;
          repeat split; eauto.
    + repeat split; eauto.
  - unfold Read; cbn.
    destruct Hc as [->|[b ->]]; cbn; [repeat split; auto|].
    set (nr := Nat.min n (length b)).
    destruct (drop nr b) as [|x rest] eqn:Hr;
      cbn [events conduit consumer readPath queue closed inflight];
      repeat split; eauto;
      (cbn [events conduit consumer readPath queue closed inflight];
       transitivity (out ++ (take nr b ++ drop nr b) ++ want q);
       [rewrite Hr, <- !app_assoc; reflexivity|rewrite take_drop; exact Ht]).
Qed.

Lemma delivering_exec (total : list byte) (sched : list action) (s : Sys) :
  delivering total s -> delivering total (run sched s).
Proof.
  revert s. induction sched as [|a sched IH]; intros s H; cbn; [exact H|].
  apply IH, delivering_act, H.
Qed.

Lemma delivering_init (evs : list RTMEvent) (chClosed : bool) :
  forallb parses evs = true -> delivering (want evs) (init evs chClosed).
Proof. intros H. repeat split; auto. Qed.

(** The draining schedule hands every line to the read path. *)
Lemma drain_delivers (q : list RTMEvent) (cl : bool) (out : list byte) :
  forallb parses q = true ->
  run (drain channelID selfUserID q)
      {| events := {| queue := q; closed := cl |}; conduit := newPipe;
         consumer := Receiving; readPath := out |} =
  {| events := {| queue := []; closed := cl |}; conduit := newPipe;
     consumer := Receiving; readPath := out ++ want q |}.
Proof.
  revert out. induction q as [|e q IH]; intros out Hp; cbn.
  - rewrite app_nil_r. reflexivity.
  - cbn in Hp. apply andb_prop in Hp as [Hpe Hpq].
    unfold reader_step, recv; cbn.
    rewrite (reader_body_parsed e Hpe). cbn.
    destruct (accepted channelID selfUserID e) as [text|]; cbn.
    + unfold Read; cbn.
      rewrite Nat.min_id, drop_all, take_ge by lia.
      rewrite IH by exact Hpq. rewrite <- app_assoc. reflexivity.
    + apply IH, Hpq.
Qed.

End Delivery.

(** ** Claims about the read path *)

Lemma malformed_step (channelID selfUserID : string) (msg : option RTMMessage)
    (err : error) (q : list RTMEvent) (cl : bool) (out : list byte) :
  let s' := act channelID selfUserID Consumer
              {| events := {| queue := {| ev_Type := "message";
                                          ev_Message := (msg, Some err) |} :: q;
                              closed := cl |};
                 conduit := newPipe; consumer := Receiving; readPath := out |} in
  werr (conduit s') = Some err /\ done (conduit s') = true /\ readPath s' = out.
Proof.
  cbn. destruct msg as [m|]; cbn; [|auto].
  destruct (negb (String.eqb (Channel m) channelID)); cbn; [auto|].
  destruct (String.eqb (User m) selfUserID); cbn; auto.
Qed.

Lemma lost_after_malformed (msg : option RTMMessage) (sched : list action) :
  readPath (exec "general-id" "U1" sched (init [malformed msg; helloFromU2] false)) = [].
Proof.
  induction sched as [|a sched IH]; [reflexivity|].
  destruct a as [|n]; [|exact IH].
  cbn [exec].
  destruct (malformed_step "general-id" "U1" msg parseError [helloFromU2] false [])
    as (_ & Hd & Hr).
  destruct (exec_done "general-id" "U1" sched _ Hd) as [_ Hr'].
  etransitivity; [exact Hr'|exact Hr].
Qed.

(** C1, as stated, fails: after a "message" event whose payload does not
    parse, a later message on the bound channel from another user never
    reaches the read path, under any schedule of the goroutine and of
    reads, whether [Message()] returned a nil pointer or a zero message
    next to its error. *)
Lemma read_path_loses_message_after_malformed :
  expected "general-id" "U1" [malformed None; helloFromU2] = line "hello" /\
  expected "general-id" "U1" [malformed (Some zeroMessage); helloFromU2] = line "hello" /\
  ~ (exists sched,
       readPath (exec "general-id" "U1" sched (init [malformed None; helloFromU2] false))
       = expected "general-id" "U1" [malformed None; helloFromU2]) /\
  ~ (exists sched,
       readPath (exec "general-id" "U1" sched
                   (init [malformed (Some zeroMessage); helloFromU2] false))
       = expected "general-id" "U1" [malformed (Some zeroMessage); helloFromU2]).
Proof.
  repeat split; try reflexivity.
  - intros [sched H]. rewrite lost_after_malformed in H. discriminate H.
  - intros [sched H]. rewrite lost_after_malformed in H. discriminate H.
Qed.

(** C1 (amended): for every sequence of inbound events in which every
    "message" event parses, on a conduit that stays open, the read path
    yields the text of each event that is of "message" kind, on the bound
    channel and from another user, each followed by one newline, in arrival
    order, and nothing for any other event: under every schedule the bytes
    read are a prefix of that concatenation, they are all of it once the
    goroutine waits on the drained stream, and the draining schedule
    reaches it. *)
Theorem read_path_yields_accepted_lines (channelID selfUserID : string)
    (evs : list RTMEvent) (chClosed : bool) :
  forallb parses evs = true ->
  (forall sched,
     readPath (exec channelID selfUserID sched (init evs chClosed))
     `prefix_of` expected channelID selfUserID evs) /\
  (forall sched,
     let s := exec channelID selfUserID sched (init evs chClosed) in
     queue (events s) = [] -> consumer s = Receiving ->
     readPath s = expected channelID selfUserID evs) /\
  readPath (exec channelID selfUserID (drain channelID selfUserID evs)
              (init evs chClosed))
  = expected channelID selfUserID evs.
Proof.
  intros Hp. repeat split.
  - intros sched.
    destruct (delivering_exec channelID selfUserID _ sched _
                (delivering_init channelID selfUserID evs chClosed Hp))
      as (_ & _ & _ & Ht).
    eexists. symmetry. exact Ht.
  - intros sched s Hq Hc.
    destruct (delivering_exec channelID selfUserID _ sched _
                (delivering_init channelID selfUserID evs chClosed Hp))
      as (_ & _ & _ & Ht).
    fold s in Ht. rewrite Hq, Hc in Ht. cbn in Ht.
    rewrite app_nil_r in Ht. exact Ht.
  - unfold init. rewrite drain_delivers by exact Hp. reflexivity.
Qed.

Lemma read_path_yields_accepted_lines_witness :
  forallb parses sampleEvents = true /\
  readPath (exec "general-id" "U1" (drain "general-id" "U1" sampleEvents)
              (init sampleEvents false))
  = line "hello" ++ line "bye".
Proof.
  split; [reflexivity|].
  exact (proj2 (proj2 (read_path_yields_accepted_lines
                         "general-id" "U1" sampleEvents false eq_refl))).
Defined.

(** C3, as stated, fails: a "message" event whose payload does not parse
    does not leave the conduit open.  The loop closes the conduit with the
    parse error before it looks at the message, whether [Message()]
    returned a nil pointer or a zero message next to the error. *)
Lemma malformed_message_closes_conduit_example :
  ~ (done (conduit (act "general-id" "U1" Consumer (init [malformed None] false)))
     = false) /\
  ~ (done (conduit (act "general-id" "U1" Consumer
                      (init [malformed (Some zeroMessage)] false)))
     = false) /\
  werr (conduit (act "general-id" "U1" Consumer (init [malformed None] false)))
  = Some parseError /\
  werr (conduit (act "general-id" "U1" Consumer
                   (init [malformed (Some zeroMessage)] false)))
  = Some parseError.
Proof. repeat split; cbn; discriminate. Qed.

(** C3 (amended): for every event of "message" kind whose payload fails to
    parse, the consumer loop closes the open conduit with the parse error
    as the conduit's close-error; no bytes are produced for that event,
    and, the conduit being closed from then on with that error, none for
    any later event. *)
Theorem malformed_message_closes_conduit (channelID selfUserID : string)
    (msg : option RTMMessage) (err : error)
    (q : list RTMEvent) (cl : bool) (out : list byte) :
  let s' := act channelID selfUserID Consumer
              {| events := {| queue := {| ev_Type := "message";
                                          ev_Message := (msg, Some err) |} :: q;
                              closed := cl |};
                 conduit := newPipe; consumer := Receiving; readPath := out |} in
  werr (conduit s') = Some err /\
  readPath s' = out /\
  forall sched,
    werr (conduit (exec channelID selfUserID sched s')) = Some err /\
    readPath (exec channelID selfUserID sched s') = out.
Proof.
  intros s'.
  destruct (malformed_step channelID selfUserID msg err q cl out) as (Hw & Hd & Hr).
  fold s' in Hw, Hd, Hr.
  repeat split; auto.
  - apply exec_werr, Hw.
  - destruct (exec_done channelID selfUserID sched s' Hd) as [_ H]. congruence.
Qed.

(** On a stream with nothing left to deliver the goroutine at its receive
    goes round on the zero event (closed stream) or waits (silent stream);
    either way nothing changes. *)
Lemma terminated_stream_step (channelID selfUserID : string)
    (p : Pipe) (cl : bool) (out : list byte) :
  let s := {| events := {| queue := []; closed := cl |}; conduit := p;
              consumer := Receiving; readPath := out |} in
  reader_step channelID selfUserID s = if cl then Some s else None.
Proof. destruct cl; reflexivity. Qed.

Lemma terminated_stream_run (channelID selfUserID : string)
    (p : Pipe) (cl : bool) (out : list byte) (n : nat) :
  let s := {| events := {| queue := []; closed := cl |}; conduit := p;
              consumer := Receiving; readPath := out |} in
  exec channelID selfUserID (repeat Consumer n) s = s.
Proof.
  intros s. subst s. induction n as [|n IH]; [reflexivity|].
  pose proof (terminated_stream_step channelID selfUserID p cl out) as Hs.
  cbv zeta in Hs. cbn [repeat exec act]. rewrite Hs.
  destruct cl; exact IH.
Qed.

(** C4, as stated, fails: on a closed and drained event stream the loop
    never closes the conduit and never stops. *)
Lemma closed_stream_never_closes_conduit :
  ~ (exists n,
       let s := exec "general-id" "U1" (repeat Consumer n) (init [] true) in
       consumer s = Returned \/ done (conduit s) = true).
Proof.
  intros [n H]. unfold init in H.
  rewrite (terminated_stream_run "general-id" "U1" newPipe true [] n) in H.
  cbn in H. destruct H as [H|H]; discriminate H.
Qed.

(** C4 (amended): when the Session's event stream has terminated (closed,
    or silent with nothing left to deliver), the consumer loop does not
    close the internal conduit and does not stop: on a closed stream each
    receive yields the zero event, which is not a message, and the loop
    goes round again at once; on a silent stream the receive blocks.
    However long the loop runs, the conduit and the read path stay as they
    were. *)
Theorem terminated_stream_leaves_conduit (channelID selfUserID : string)
    (p : Pipe) (cl : bool) (out : list byte) :
  let s := {| events := {| queue := []; closed := cl |}; conduit := p;
              consumer := Receiving; readPath := out |} in
  reader_step channelID selfUserID s = (if cl then Some s else None) /\
  forall n, exec channelID selfUserID (repeat Consumer n) s = s.
Proof.
  intros s. split.
  - apply terminated_stream_step.
  - intros n. apply terminated_stream_run.
Qed.

(** C5, as stated, fails: with no one reading, the goroutine stays in the
    write of the first line and the second event is never taken. *)
Lemma consumer_blocks_without_reader :
  ~ (exists n,
       queue (events (exec "general-id" "U1" (repeat Consumer n)
                        (init [helloFromU2; byeFromU3] false))) = []).
Proof.
  intros [n H]. destruct n as [|n]; [discriminate H|].
  cbn [repeat exec] in H.
  rewrite exec_blocked in H by reflexivity.
  discriminate H.
Qed.

Lemma accepted_parses (channelID selfUserID : string) (e : RTMEvent) (text : string) :
  accepted channelID selfUserID e = Some text -> parses e = true.
Proof.
  unfold accepted, parses.
  destruct (String.eqb (ev_Type e) "message"); [|discriminate].
  destruct (ev_Message e) as [[m|] [err|]]; try discriminate. reflexivity.
Qed.

(** C5 (amended): the internal conduit is a synchronous pipe without a
    buffer.  When the consumer takes an event that passes the filter, on
    the open conduit, the append of its newline-terminated text blocks the
    consumer until foreground reads have taken every byte of it, or the
    conduit is closed: with the write in flight the consumer cannot move
    and, with no one reading, takes no further event however long it is
    scheduled; a read that leaves bytes behind leaves it blocked; the read
    that takes the last byte lets it go back to its receive; and when the
    conduit is closed under it, it gives the write up and returns. *)
Theorem conduit_write_blocks_until_read (channelID selfUserID : string)
    (e : RTMEvent) (text : string) (q : list RTMEvent) (cl : bool)
    (out : list byte) (n : nat) :
  accepted channelID selfUserID e = Some text ->
  let s0 := {| events := {| queue := e :: q; closed := cl |}; conduit := newPipe;
               consumer := Receiving; readPath := out |} in
  let s1 := {| events := {| queue := q; closed := cl |}; conduit := newPipe;
               consumer := Writing (line text); readPath := out |} in
  reader_step channelID selfUserID s0 = Some s1 /\
  reader_step channelID selfUserID s1 = None /\
  (forall k, exec channelID selfUserID (repeat Consumer (S k)) s0 = s1) /\
  (n < length (line text) ->
   let s2 := {| events := {| queue := q; closed := cl |}; conduit := newPipe;
                consumer := Writing (drop n (line text));
                readPath := out ++ take n (line text) |} in
   act channelID selfUserID (ReadCall n) s1 = s2 /\
   reader_step channelID selfUserID s2 = None) /\
  (length (line text) <= n ->
   act channelID selfUserID (ReadCall n) s1 =
   {| events := {| queue := q; closed := cl |}; conduit := newPipe;
      consumer := Receiving; readPath := out ++ line text |}) /\
  reader_step channelID selfUserID (closeReadPath s1) =
  Some {| events := {| queue := q; closed := cl |};
          conduit := closedConduit newPipe;
          consumer := Returned; readPath := out |}.
Proof.
  intros Ha s0 s1.
  assert (H0 : reader_step channelID selfUserID s0 = Some s1).
  { unfold reader_step, recv, s0. cbn [consumer events queue closed conduit readPath].
    rewrite (reader_body_parsed channelID selfUserID e
               (accepted_parses channelID selfUserID e text Ha)), Ha.
    reflexivity. }
  assert (H1 : reader_step channelID selfUserID s1 = None) by reflexivity.
  split; [exact H0|]. split; [exact H1|]. split; [|split; [|split]].
  - intros k. cbn [repeat exec act]. rewrite H0. cbn [default].
    apply exec_blocked, H1.
  - intros Hn s2.
    assert (Hm : Nat.min n (length (line text)) = n) by lia.
    assert (Hd : drop n (line text) <> []).
    { intros Hd. apply (f_equal length) in Hd. rewrite length_drop in Hd.
      cbn [length] in Hd. lia. }
    split.
    + cbn [act]. unfold Read, s1.
      cbn [consumer conduit done newPipe rerr werr events readPath].
      rewrite Hm. unfold s2.
      destruct (drop n (line text)) as [|y rest]; [contradiction|reflexivity].
    + unfold reader_step, s2. cbn [consumer conduit done newPipe rerr werr]. reflexivity.
  - intros Hn. cbn [act]. unfold Read, s1.
    cbn [consumer conduit done newPipe rerr werr events readPath].
    assert (Hm : Nat.min n (length (line text)) = length (line text)) by lia.
    rewrite Hm, drop_all, take_ge by lia. reflexivity.
  - reflexivity.
Qed.

Lemma conduit_write_blocks_until_read_witness :
  accepted "general-id" "U1" helloFromU2 = Some "hello" /\
  reader_step "general-id" "U1" (init [helloFromU2; byeFromU3] false) =
    Some {| events := {| queue := [byeFromU3]; closed := false |};
            conduit := newPipe;
            consumer := Writing (line "hello"); readPath := [] |} /\
  act "general-id" "U1" (ReadCall 2)
    {| events := {| queue := [byeFromU3]; closed := false |}; conduit := newPipe;
       consumer := Writing (line "hello"); readPath := [] |} =
    {| events := {| queue := [byeFromU3]; closed := false |}; conduit := newPipe;
       consumer := Writing (drop 2 (line "hello"));
       readPath := [] ++ take 2 (line "hello") |} /\
  act "general-id" "U1" (ReadCall 6)
    {| events := {| queue := [byeFromU3]; closed := false |}; conduit := newPipe;
       consumer := Writing (line "hello"); readPath := [] |} =
    {| events := {| queue := [byeFromU3]; closed := false |}; conduit := newPipe;
       consumer := Receiving; readPath := [] ++ line "hello" |}.
Proof.
  split; [reflexivity|].
  pose proof (conduit_write_blocks_until_read "general-id" "U1" helloFromU2 "hello"
                [byeFromU3] false [] 2 eq_refl) as (H0 & _ & _ & Hpart & _ & _).
  pose proof (conduit_write_blocks_until_read "general-id" "U1" helloFromU2 "hello"
                [byeFromU3] false [] 6 eq_refl) as (_ & _ & _ & _ & Hall & _).
  split; [exact H0|]. split.
  - apply Hpart. cbn. lia.
  - apply Hall. cbn. lia.
Defined.

(** ** Construction *)

Lemma rangeChannels_first (channels pre post : list SlackChannel)
    (c : SlackChannel) (channelName : string) :
  channels = pre ++ c :: post ->
  Forall (fun c' => Name c' <> channelName) pre ->
  Name c = channelName ->
  rangeChannels channels channelName = ID c.
Proof.
  intros -> Hpre Hc. induction Hpre as [|c' pre Hc' _ IH]; cbn.
  - rewrite Hc, String.eqb_refl. reflexivity.
  - apply String.eqb_neq in Hc'. rewrite Hc'. exact IH.
Qed.

Lemma rangeChannels_none (channels : list SlackChannel) (channelName : string) :
  Forall (fun c => Name c <> channelName) channels ->
  rangeChannels channels channelName = EmptyString.
Proof.
  induction 1 as [|c channels Hc _ IH]; cbn; [reflexivity|].
  apply String.eqb_neq in Hc. rewrite Hc. exact IH.
Qed.

(** The successful path through [newIface]. *)
Lemma newIface_bound (slack : Service) (url token channelName : string)
    (channels : list SlackChannel) (authBuf : list byte) (rtmStart : RTMBroker)
    (w : World) :
  ChannelsList (slack token url) = inl channels ->
  rangeChannels channels channelName <> EmptyString ->
  RunMethod (slack token url) "auth.test" = inl authBuf ->
  RTMStart (slack token url) = inl rtmStart ->
  connectAnswer rtmStart = None ->
  newIface slack url token channelName w =
  Ret ((Some {| channelID := rangeChannels channels channelName;
                selfUserID := fst (Unmarshal (slack token url) authBuf);
                broker := Some (length (brokers w)) |}, None),
       {| brokers := brokers w ++ [rtmStart]; pipes := pipes w |}).
Proof.
  intros Hl Hid Ha Hs Hc. unfold newIface.
  rewrite Hl. apply String.eqb_neq in Hid. rewrite Hid, Ha.
  destruct (Unmarshal (slack token url) authBuf) as [UserID decodeErr].
  rewrite Hs. unfold bind, NewRTMBroker, RTMBroker_Connect, ret. cbn.
  rewrite list_lookup_middle by reflexivity. rewrite Hc. reflexivity.
Qed.

(** A binding that [newIface] returns carries what the scan found. *)
Lemma newIface_channelID (slack : Service) (url token channelName : string)
    (channels : list SlackChannel) (common : readerWriterCommon) (w w' : World) :
  ChannelsList (slack token url) = inl channels ->
  newIface slack url token channelName w = Ret ((Some common, None), w') ->
  channelID common = rangeChannels channels channelName.
Proof.
  intros Hl. unfold newIface. rewrite Hl.
  destruct (String.eqb _ EmptyString); [discriminate|].
  destruct (RunMethod _ _) as [authBuf|err]; [|discriminate].
  destruct (Unmarshal _ _) as [UserID decodeErr].
  destruct (RTMStart _) as [rtmStart|err]; [|discriminate].
  unfold bind, NewRTMBroker, RTMBroker_Connect, ret. cbn.
  rewrite list_lookup_middle by reflexivity.
  destruct (connectAnswer rtmStart); [discriminate|].
  intros H. injection H as <- _. reflexivity.
Qed.

Lemma newIface_not_found (slack : Service) (url token channelName : string)
    (channels : list SlackChannel) (w : World) :
  ChannelsList (slack token url) = inl channels ->
  rangeChannels channels channelName = EmptyString ->
  newIface slack url token channelName w =
  Ret ((None, Some (cannotFindChannel channelName)), w).
Proof.
  intros Hl Hid. unfold newIface. rewrite Hl, Hid. reflexivity.
Qed.

(** C7: channel resolution scans the enumerated list for the first entry
    whose name equals the configured name exactly and binds that entry's
    identifier: the scan yields it, every binding that construction returns
    carries it, and when the remaining steps succeed construction returns
    the binding whose [channelID] it is.  If no entry matches, construction
    fails with the channel-not-found error that carries the requested name,
    no adapter object is returned, and the store is left as it was. *)
Theorem channel_resolution_first_match (slack : Service)
    (url token channelName : string) (channels : list SlackChannel) (w : World) :
  ChannelsList (slack token url) = inl channels ->
  (forall pre c post,
     channels = pre ++ c :: post ->
     Forall (fun c' => Name c' <> channelName) pre ->
     Name c = channelName ->
     rangeChannels channels channelName = ID c /\
     (forall common w',
        newIface slack url token channelName w = Ret ((Some common, None), w') ->
        channelID common = ID c) /\
     (forall authBuf rtmStart,
        ID c <> EmptyString ->
        RunMethod (slack token url) "auth.test" = inl authBuf ->
        RTMStart (slack token url) = inl rtmStart ->
        connectAnswer rtmStart = None ->
        newIface slack url token channelName w =
          Ret ((Some {| channelID := ID c;
                        selfUserID := fst (Unmarshal (slack token url) authBuf);
                        broker := Some (length (brokers w)) |}, None),
               {| brokers := brokers w ++ [rtmStart]; pipes := pipes w |}))) /\
  (Forall (fun c => Name c <> channelName) channels ->
   cannotFindChannel channelName = ErrString ("cannot find channel " ++ channelName) /\
   newIface slack url token channelName w =
     Ret ((None, Some (cannotFindChannel channelName)), w) /\
   NewReader slack url token channelName w =
     Ret ((None, Some (cannotFindChannel channelName)), w) /\
   NewWriter slack url token channelName w =
     Ret ((None, Some (cannotFindChannel channelName)), w) /\
   NewReaderWriter slack url token channelName w =
     Ret ((None, Some (cannotFindChannel channelName)), w)).
Proof.
  intros Hl. split.
  - intros pre c post Hsplit Hpre Hc.
    pose proof (rangeChannels_first channels pre post c channelName Hsplit Hpre Hc) as Hr.
    split; [exact Hr|]. split.
    + intros common w' Hn. rewrite <- Hr.
      exact (newIface_channelID slack url token channelName channels common w w' Hl Hn).
    + intros authBuf rtmStart Hid Ha Hs Hconn. rewrite <- Hr in Hid |- *.
      exact (newIface_bound slack url token channelName channels authBuf rtmStart w
               Hl Hid Ha Hs Hconn).
  - intros Hnone.
    pose proof (newIface_not_found slack url token channelName channels w Hl
                  (rangeChannels_none channels channelName Hnone)) as Hn.
    repeat split; [exact Hn| | |];
      unfold NewReader, NewWriter, NewReaderWriter, bind; rewrite Hn; reflexivity.
Qed.

Lemma channel_resolution_first_match_witness :
  (rangeChannels sampleChannels "general" = "general-id" /\
   newIface (fun _ _ => sampleClient) EmptyString "token" "general" emptyWorld
     = Ret ((Some {| channelID := "general-id"; selfUserID := "U1";
                     broker := Some 0 |}, None),
            {| brokers := [sampleSession]; pipes := [] |})) /\
  newIface (fun _ _ => sampleClient) EmptyString "token" "General" emptyWorld
    = Ret ((None, Some (ErrString "cannot find channel General")), emptyWorld).
Proof.
  pose proof (channel_resolution_first_match (fun _ _ => sampleClient)
                EmptyString "token" "general" sampleChannels emptyWorld eq_refl)
    as [Hfirst _].
  pose proof (channel_resolution_first_match (fun _ _ => sampleClient)
                EmptyString "token" "General" sampleChannels emptyWorld eq_refl)
    as [_ Hnone].
  split.
  - destruct (Hfirst [ {| Name := "random"; ID := "random-id" |} ]
                     {| Name := "general"; ID := "general-id" |}
                     [ {| Name := "general"; ID := "second-id" |} ])
      as (Hscan & _ & Hbind).
    + reflexivity.
    + repeat constructor. discriminate.
    + reflexivity.
    + split; [exact Hscan|].
      apply (Hbind (list_byte_of_string "{user_id:U1}") sampleSession);
        [discriminate|reflexivity|reflexivity|reflexivity].
  - apply Hnone. repeat constructor; discriminate.
Defined.

(** What the two constructors do when [auth.test] fails after the channel
    was found. *)
Lemma identity_lookup_failure (slack : Service) (url token channelName : string)
    (channels : list SlackChannel) (err : error) (w : World) :
  ChannelsList (slack token url) = inl channels ->
  rangeChannels channels channelName <> EmptyString ->
  RunMethod (slack token url) "auth.test" = inr err ->
  newIface slack url token channelName w = Ret ((None, Some err), w) /\
  New slack url token channelName w = Panic err.
Proof.
  intros Hl Hid Ha. apply String.eqb_neq in Hid. split.
  - unfold newIface. rewrite Hl, Hid, Ha. reflexivity.
  - unfold New, bind, Slack_init. cbn. rewrite Hl. cbn. rewrite Hid, Ha. reflexivity.
Qed.

(** C6 on the code: when the identity lookup fails, [newIface] (and with
    it [NewReader], [NewWriter], [NewReaderWriter]) returns the error and
    no adapter, but [New], through [Slack.init], panics with it. *)
Example identity_lookup_failure_panics_in_New :
  New (fun _ _ => authDown) EmptyString "token" "general" emptyWorld = Panic authError /\
  newIface (fun _ _ => authDown) EmptyString "token" "general" emptyWorld
    = Ret ((None, Some authError), emptyWorld) /\
  NewReaderWriter (fun _ _ => authDown) EmptyString "token" "general" emptyWorld
    = Ret ((None, Some authError), emptyWorld).
Proof. repeat split. Qed.

(** C10: if the identity lookup succeeds but its body does not decode, the
    decode error is dropped and construction still succeeds, with the empty
    string recorded as the binding's own identity; from then on the loop
    drops every "message" event whose user identifier is the empty string:
    the event is taken, nothing is written to the conduit, and the read
    path gets nothing for it. *)
Theorem undecodable_identity_binds_empty_user (slack : Service)
    (url token channelName : string) (channels : list SlackChannel)
    (authBuf : list byte) (decodeErr : error) (rtmStart : RTMBroker) (w : World) :
  ChannelsList (slack token url) = inl channels ->
  rangeChannels channels channelName <> EmptyString ->
  RunMethod (slack token url) "auth.test" = inl authBuf ->
  Unmarshal (slack token url) authBuf = (EmptyString, Some decodeErr) ->
  RTMStart (slack token url) = inl rtmStart ->
  connectAnswer rtmStart = None ->
  exists common w',
    newIface slack url token channelName w = Ret ((Some common, None), w') /\
    selfUserID common = EmptyString /\
    forall (ty text ch : string) (q : list RTMEvent) (cl : bool)
           (p : Pipe) (out : list byte),
      let e := {| ev_Type := "message";
                  ev_Message := (Some {| msg_Type := ty; Text := text;
                                         Channel := ch; User := EmptyString |},
                                 None) |} in
      accepted (channelID common) (selfUserID common) e = None /\
      Reader_reader common
        {| events := {| queue := e :: q; closed := cl |}; conduit := p;
           consumer := Receiving; readPath := out |} =
      Some {| events := {| queue := q; closed := cl |}; conduit := p;
              consumer := Receiving; readPath := out |}.
Proof.
  intros Hl Hid Ha Hu Hs Hc.
  eexists _, _. split; [|split].
  - exact (newIface_bound slack url token channelName channels authBuf rtmStart w
             Hl Hid Ha Hs Hc).
  - cbn. rewrite Hu. reflexivity.
  - intros ty text ch q cl p out e. cbn [channelID selfUserID].
    rewrite Hu. cbn [fst]. split.
    + unfold accepted. cbn. rewrite Bool.andb_false_r. reflexivity.
    + unfold Reader_reader, reader_step, recv, reader_body. cbn.
      destruct (String.eqb ch (rangeChannels channels channelName)); reflexivity.
Qed.

Lemma undecodable_identity_binds_empty_user_witness :
  exists common w',
    newIface (fun _ _ => authGarbled) EmptyString "token" "general" emptyWorld
      = Ret ((Some common, None), w') /\
    selfUserID common = EmptyString.
Proof.
  destruct (undecodable_identity_binds_empty_user (fun _ _ => authGarbled)
              EmptyString "token" "general" sampleChannels (list_byte_of_string "<html>")
              (ErrString "invalid character") sampleSession emptyWorld)
    as (common & w' & Hn & Hu & _); try reflexivity.
  - discriminate.
  - exists common, w'. split; [exact Hn|exact Hu].
Defined.

(** ** Writing *)

Lemma RTMBroker_Publish_at (i : ptr) (br : RTMBroker) (m : RTMMessage) (w : World) :
  brokers w !! i = Some br ->
  RTMBroker_Publish (Some i) m w =
  Ret (publishAnswer br (publishCalls br) (closeCalls br) m,
       {| brokers := <[i := notePublish br m]> (brokers w); pipes := pipes w |}).
Proof. intros H. unfold RTMBroker_Publish. rewrite H. reflexivity. Qed.

(** C8: for every byte payload the write operation issues exactly one
    publish, of a "message" event whose text is the payload as a string and
    whose channel is the bound channel identifier; when the publish
    succeeds it returns the length of the payload and no error, when it
    fails it returns zero and the publish error.  This holds for
    [Writer.Write] and for [Slack.Write] on a constructed [Slack]. *)
Theorem write_publishes_once (i : ptr) (br : RTMBroker) (w : World)
    (id self : string) (p : list byte) (s : Slack) :
  brokers w !! i = Some br ->
  sl_broker s = Some i ->
  let m := outgoing id p in
  let answer := publishAnswer br (publishCalls br) (closeCalls br) m in
  let result := match answer with
                | Some err => (0, Some err)
                | None => (length p, None)
                end in
  Writer_Write {| w_common := Some {| channelID := id; selfUserID := self;
                                      broker := Some i |} |} p w =
    Ret (result,
         {| brokers := <[i := notePublish br m]> (brokers w); pipes := pipes w |}) /\
  m = {| msg_Type := "message"; Text := string_of_list_byte p;
         Channel := id; User := EmptyString |} /\
  publishCalls (notePublish br m) = publishCalls br ++ [m] /\
  forall slack,
    Slack_Write slack s p w =
    Ret ((s, match publishAnswer br (publishCalls br) (closeCalls br)
                     (outgoing (sl_channelID s) p) with
             | Some err => (0, Some err)
             | None => (length p, None)
             end),
         {| brokers := <[i := notePublish br (outgoing (sl_channelID s) p)]> (brokers w);
            pipes := pipes w |}).
Proof.
  intros Hb Hs m answer result. subst result answer m. repeat split.
  - unfold Writer_Write, bind. cbn [w_common broker channelID].
    rewrite (RTMBroker_Publish_at i br _ w Hb).
    destruct (publishAnswer _ _ _ _); reflexivity.
  - intros slack. unfold Slack_Write, Slack_initWrite, Slack_init, bind.
    rewrite Hs. cbn [ret]. rewrite Hs.
    rewrite (RTMBroker_Publish_at i br _ w Hb).
    destruct (publishAnswer _ _ _ _); reflexivity.
Qed.

Lemma write_publishes_once_witness :
  Writer_Write {| w_common := Some sampleCommon |} (list_byte_of_string "reply")
    sampleWorld =
  Ret ((5, None),
       {| brokers := [notePublish sampleSession
                        {| msg_Type := "message"; Text := "reply";
                           Channel := "general-id"; User := EmptyString |}];
          pipes := [newPipe] |}).
Proof.
  exact (proj1 (write_publishes_once 0 sampleSession sampleWorld "general-id" "U1"
                  (list_byte_of_string "reply")
                  {| URL := EmptyString; Token := "token"; sl_Channel := "general";
                     sl_channelID := "general-id"; sl_selfUserID := "U1";
                     sl_broker := Some 0;
                     readPipeReader := None; readPipeWriter := None |}
                  eq_refl eq_refl)).
Defined.

(** ** Closing *)

Section Closing.

Implicit Types (w : World) (r b : option ptr) (e : option error).

Lemma withPipe_ret r (f : Pipe -> Pipe) w e w' :
  withPipe r f w = Ret (e, w') ->
  exists i p,
    r = Some i /\ pipes w !! i = Some p /\ e = None /\
    w' = {| brokers := brokers w; pipes := <[i := f p]> (pipes w) |}.
Proof.
  unfold withPipe. destruct r as [i|]; [|discriminate].
  destruct (pipes w !! i) as [p|] eqn:Hp; [|discriminate].
  intros H. injection H as <- <-. eauto 6.
Qed.

Lemma withPipe_at (i : ptr) (p : Pipe) (f : Pipe -> Pipe) w :
  pipes w !! i = Some p ->
  withPipe (Some i) f w =
  Ret (None, {| brokers := brokers w; pipes := <[i := f p]> (pipes w) |}).
Proof. intros H. unfold withPipe. rewrite H. reflexivity. Qed.

Lemma withPipe_fixed r (f : Pipe -> Pipe) w i p :
  r = Some i -> pipes w !! i = Some p -> f p = p ->
  withPipe r f w = Ret (None, w).
Proof.
  intros -> Hp Hf. unfold withPipe. rewrite Hp, Hf.
  rewrite list_insert_id by exact Hp. destruct w; reflexivity.
Qed.

Lemma is_Some_onceStore (slot : option error) (err : error) :
  is_Some (onceStore slot err).
Proof. destruct slot; cbn; eauto. Qed.

Lemma closeRead_fixed (p : Pipe) : is_Some (rerr p) -> closeRead p None = p.
Proof. destruct p as [r w0]. intros [x Hx]. cbn in Hx. subst r. reflexivity. Qed.

Lemma closeWrite_fixed (p : Pipe) : is_Some (werr p) -> closeWrite p None = p.
Proof. destruct p as [r0 w0]. intros [x Hx]. cbn in Hx. subst w0. reflexivity. Qed.

(** Closing an end of a pipe keeps every closed end closed. *)
Lemma rdone_insert w r j (p q : Pipe) :
  pipes w !! j = Some p -> (is_Some (rerr p) -> is_Some (rerr q)) ->
  rdone w r ->
  rdone {| brokers := brokers w; pipes := <[j := q]> (pipes w) |} r.
Proof.
  intros Hj Hq (i & p' & -> & Hp' & Hr).
  destruct (decide (j = i)) as [->|Hne].
  - exists i, q. repeat split.
    + apply list_lookup_insert_eq. eapply lookup_lt_Some, Hj.
    + apply Hq. congruence.
  - exists i, p'. repeat split; [|exact Hr].
    cbn. rewrite list_lookup_insert_ne by exact Hne. exact Hp'.
Qed.

Lemma wdone_insert w r j (p q : Pipe) :
  pipes w !! j = Some p -> (is_Some (werr p) -> is_Some (werr q)) ->
  wdone w r ->
  wdone {| brokers := brokers w; pipes := <[j := q]> (pipes w) |} r.
Proof.
  intros Hj Hq (i & p' & -> & Hp' & Hr).
  destruct (decide (j = i)) as [->|Hne].
  - exists i, q. repeat split.
    + apply list_lookup_insert_eq. eapply lookup_lt_Some, Hj.
    + apply Hq. congruence.
  - exists i, p'. repeat split; [|exact Hr].
    cbn. rewrite list_lookup_insert_ne by exact Hne. exact Hp'.
Qed.

Lemma PipeReader_Close_ret r w e w' :
  PipeReader_Close r w = Ret (e, w') ->
  e = None /\ brokers w' = brokers w /\ rdone w' r /\
  (forall r', rdone w r' -> rdone w' r') /\
  (forall r', wdone w r' -> wdone w' r').
Proof.
  intros H. apply withPipe_ret in H as (i & p & -> & Hp & -> & ->).
  assert (Hlt : i < length (pipes w)) by (eapply lookup_lt_Some, Hp).
  repeat split.
  - exists i, (closeRead p None). repeat split.
    + cbn. apply list_lookup_insert_eq, Hlt.
    + apply is_Some_onceStore.
  - intros r' Hr'. eapply rdone_insert; eauto. intros _. apply is_Some_onceStore.
  - intros r' Hr'. eapply wdone_insert; eauto.
Qed.

Lemma PipeWriter_Close_ret r w e w' :
  PipeWriter_Close r w = Ret (e, w') ->
  e = None /\ brokers w' = brokers w /\ wdone w' r /\
  (forall r', rdone w r' -> rdone w' r') /\
  (forall r', wdone w r' -> wdone w' r').
Proof.
  intros H. apply withPipe_ret in H as (i & p & -> & Hp & -> & ->).
  assert (Hlt : i < length (pipes w)) by (eapply lookup_lt_Some, Hp).
  repeat split.
  - exists i, (closeWrite p None). repeat split.
    + cbn. apply list_lookup_insert_eq, Hlt.
    + apply is_Some_onceStore.
  - intros r' Hr'. eapply rdone_insert; eauto.
  - intros r' Hr'. eapply wdone_insert; eauto. intros _. apply is_Some_onceStore.
Qed.

(** Closing a closed end changes nothing. *)
Lemma PipeReader_Close_again r w : rdone w r -> PipeReader_Close r w = Ret (None, w).
Proof.
  intros (i & p & Hr & Hp & Hd).
  exact (withPipe_fixed r _ w i p Hr Hp (closeRead_fixed p Hd)).
Qed.

Lemma PipeWriter_Close_again r w : wdone w r -> PipeWriter_Close r w = Ret (None, w).
Proof.
  intros (i & p & Hr & Hp & Hd).
  exact (withPipe_fixed r _ w i p Hr Hp (closeWrite_fixed p Hd)).
Qed.

Lemma RTMBroker_Close_at (i : ptr) (br : RTMBroker) w :
  brokers w !! i = Some br ->
  RTMBroker_Close (Some i) w =
  Ret (closeAnswer br (closeCalls br),
       {| brokers := <[i := noteClose br]> (brokers w); pipes := pipes w |}).
Proof. intros H. unfold RTMBroker_Close. rewrite H. reflexivity. Qed.

Lemma wasClosed_noteClose w b (j : ptr) (br : RTMBroker) :
  brokers w !! j = Some br ->
  wasClosed w b ->
  wasClosed {| brokers := <[j := noteClose br]> (brokers w); pipes := pipes w |} b.
Proof.
  intros Hj (i & br' & -> & Hi & Hc).
  destruct (decide (j = i)) as [->|Hne].
  - exists i, (noteClose br). repeat split.
    + apply list_lookup_insert_eq. eapply lookup_lt_Some, Hj.
    + cbn. lia.
  - exists i, br'. repeat split; [|exact Hc].
    cbn. rewrite list_lookup_insert_ne by exact Hne. exact Hi.
Qed.

Lemma RTMBroker_Close_ret b w e w' :
  RTMBroker_Close b w = Ret (e, w') ->
  pipes w' = pipes w /\ wasClosed w' b /\
  (forall b', wasClosed w b' -> wasClosed w' b').
Proof.
  unfold RTMBroker_Close. destruct b as [i|]; [|discriminate].
  destruct (brokers w !! i) as [br|] eqn:Hb; [|discriminate].
  intros H. injection H as <- <-. repeat split.
  - exists i, (noteClose br). repeat split.
    + cbn. apply list_lookup_insert_eq. eapply lookup_lt_Some, Hb.
    + cbn. lia.
  - intros b' Hb'. apply wasClosed_noteClose; assumption.
Qed.

(** Closing a closed session again returns what such a session answers;
    an answer of a closed session after that close is one before it. *)
Lemma RTMBroker_Close_again b w :
  wasClosed w b ->
  exists e w',
    RTMBroker_Close b w = Ret (e, w') /\
    pipes w' = pipes w /\
    closedAnswer w e /\
    (forall b', wasClosed w b' -> wasClosed w' b') /\
    (forall e', closedAnswer w' e' -> closedAnswer w e').
Proof.
  intros (i & br & -> & Hb & Hc).
  eexists _, _. split; [apply (RTMBroker_Close_at i br w Hb)|].
  repeat split.
  - exists i, br, (closeCalls br). repeat split; auto.
  - intros b' Hb'. apply wasClosed_noteClose; assumption.
  - intros e' (j & br' & k & Hj & Hc' & Hk & ->). cbn in Hj.
    destruct (decide (i = j)) as [<-|Hne].
    + rewrite list_lookup_insert_eq in Hj by (eapply lookup_lt_Some, Hb).
      injection Hj as <-. exists i, br, k. cbn in *. repeat split; auto; lia.
    + rewrite list_lookup_insert_ne in Hj by exact Hne.
      exists j, br', k. repeat split; auto.
Qed.

End Closing.

Section ClosingAdapters.

Implicit Types (w : World) (r b : option ptr) (e : option error).

Lemma wasClosed_brokers w w' b :
  brokers w' = brokers w -> wasClosed w b -> wasClosed w' b.
Proof. intros Hb (i & br & Hi & Hl & Hc). exists i, br. rewrite Hb. auto. Qed.

Lemma rdone_pipes w w' r : pipes w' = pipes w -> rdone w r -> rdone w' r.
Proof. intros Hp (i & p & Hi & Hl & Hd). exists i, p. rewrite Hp. auto. Qed.

Lemma wdone_pipes w w' r : pipes w' = pipes w -> wdone w r -> wdone w' r.
Proof. intros Hp (i & p & Hi & Hl & Hd). exists i, p. rewrite Hp. auto. Qed.

Lemma wasClosed_nil w : ~ wasClosed w None.
Proof. intros (i & br & Hi & _). discriminate Hi. Qed.

Lemma common_Close_ret (c : option readerWriterCommon) w e w' :
  readerWriterCommon_Close c w = Ret (e, w') ->
  RTMBroker_Close (c ≫= broker) w = Ret (e, w').
Proof. destruct c as [c|]; [intros H; exact H|discriminate]. Qed.

Lemma common_Close_closed (c : option readerWriterCommon) w :
  wasClosed w (c ≫= broker) ->
  readerWriterCommon_Close c w = RTMBroker_Close (c ≫= broker) w.
Proof. destruct c as [c|]; [reflexivity|]. intros H. destruct (wasClosed_nil w H). Qed.

(** What a returning [Reader.Close] leaves behind. *)
Lemma Reader_Close_ret (s : Reader) w e w1 :
  Reader_Close s w = Ret (e, w1) ->
  rdone w1 (pipeReader s) /\ wdone w1 (pipeWriter s) /\
  wasClosed w1 (r_common s ≫= broker) /\
  (forall b', wasClosed w b' -> wasClosed w1 b').
Proof.
  unfold Reader_Close, bind.
  destruct (PipeReader_Close (pipeReader s) w) as [[e1 wa]|] eqn:H1; [|discriminate].
  destruct (PipeWriter_Close (pipeWriter s) wa) as [[e2 wb]|] eqn:H2; [|discriminate].
  intros H3. apply common_Close_ret in H3.
  apply PipeReader_Close_ret in H1 as (_ & Hba & Hra & _ & _).
  apply PipeWriter_Close_ret in H2 as (_ & Hbb & Hwb & Hrr & _).
  apply RTMBroker_Close_ret in H3 as (Hp & Hc & Hcc).
  repeat split.
  - eapply rdone_pipes; [exact Hp|]. apply Hrr, Hra.
  - eapply wdone_pipes; [exact Hp|]. exact Hwb.
  - exact Hc.
  - intros b' Hb'. apply Hcc.
    eapply wasClosed_brokers; [exact Hbb|].
    eapply wasClosed_brokers; [exact Hba|]. exact Hb'.
Qed.

(** [Reader.Close] on a closed reader. *)
Lemma Reader_Close_again (s : Reader) w :
  rdone w (pipeReader s) -> wdone w (pipeWriter s) ->
  wasClosed w (r_common s ≫= broker) ->
  exists e w',
    Reader_Close s w = Ret (e, w') /\
    pipes w' = pipes w /\
    closedAnswer w e /\
    (forall b', wasClosed w b' -> wasClosed w' b') /\
    (forall e', closedAnswer w' e' -> closedAnswer w e').
Proof.
  intros Hr Hw Hc. unfold Reader_Close, bind.
  rewrite (PipeReader_Close_again _ _ Hr), (PipeWriter_Close_again _ _ Hw).
  rewrite (common_Close_closed _ _ Hc).
  apply RTMBroker_Close_again, Hc.
Qed.

(** C9: for every adapter variant (read-only, write-only, duplex and the
    combined [Slack]), a second close after a close that returned without
    error returns (it neither panics nor waits for anything), leaves every
    pipe as the first close left it, and returns nil or an error made only
    of what the already closed session answers to a further close. *)
Theorem second_close_reports_only_already_closed (a : adapter) (w w1 : World) :
  Close a w = Ret (None, w1) ->
  exists e2 w2,
    Close a w1 = Ret (e2, w2) /\
    pipes w2 = pipes w1 /\
    alreadyClosedOnly w1 e2.
Proof.
  destruct a as [s|s|s|s]; cbn [Close]; intros H.
  - apply Reader_Close_ret in H as (Hr & Hw & Hc & _).
    destruct (Reader_Close_again s w1 Hr Hw Hc) as (e2 & w2 & H2 & Hp & Ha & _).
    exists e2, w2. repeat split; auto. apply aco_answer, Ha.
  - unfold Writer_Close in *. apply common_Close_ret in H.
    apply RTMBroker_Close_ret in H as (_ & Hc & _).
    rewrite (common_Close_closed _ _ Hc).
    destruct (RTMBroker_Close_again _ _ Hc) as (e2 & w2 & H2 & Hp & Ha & _).
    exists e2, w2. repeat split; auto. apply aco_answer, Ha.
  - unfold ReaderWriter_Close, bind in *.
    destruct (Reader_Close (rw_Reader s) w) as [[e1 wa]|] eqn:H1; [|discriminate].
    destruct (readerWriterCommon_Close (rw_common s) wa) as [[e1' wb]|] eqn:H1';
      [|discriminate].
    injection H as _ <-.
    apply Reader_Close_ret in H1 as (Hr & Hw & Hc & _).
    apply common_Close_ret in H1'.
    apply RTMBroker_Close_ret in H1' as (Hp' & Hc' & Hcc').
    assert (Hr1 : rdone wb (pipeReader (rw_Reader s))) by (eapply rdone_pipes; eauto).
    assert (Hw1 : wdone wb (pipeWriter (rw_Reader s))) by (eapply wdone_pipes; eauto).
    destruct (Reader_Close_again (rw_Reader s) wb Hr1 Hw1 (Hcc' _ Hc))
      as (ea & wc & H2 & Hpa & Ha & Hkeep & _).
    rewrite H2.
    rewrite (common_Close_closed _ _ (Hkeep _ Hc')).
    destruct (RTMBroker_Close_again _ _ (Hkeep _ Hc'))
      as (eb & wd & H2' & Hpb & Hb & _ & _).
    rewrite H2'. exists (ReturnValue [ea; eb]), wd. repeat split.
    + congruence.
    + apply aco_set; [exact Ha|].
      destruct (Reader_Close_again (rw_Reader s) wb Hr1 Hw1 (Hcc' _ Hc))
        as (ea' & wc' & H3 & _ & _ & _ & Hback).
      rewrite H2 in H3. injection H3 as <- <-. apply Hback, Hb.
  - unfold Slack_Close, bind, ret in *.
    destruct (readPipeReader s) as [pr|] eqn:Epr.
    + destruct (PipeReader_Close (Some pr) w) as [[e1 wa]|] eqn:H1; [|discriminate].
      apply PipeReader_Close_ret in H1 as (_ & Hba & Hra & _ & _).
      destruct (readPipeWriter s) as [pw|] eqn:Epw.
      * destruct (PipeWriter_Close (Some pw) wa) as [[e2 wb]|] eqn:H2; [|discriminate].
        apply PipeWriter_Close_ret in H2 as (_ & Hbb & Hwb & Hrr & _).
        destruct (sl_broker s) as [bp|] eqn:Eb.
        -- destruct (RTMBroker_Close (Some bp) wb) as [[e3 wc]|] eqn:H3; [|discriminate].
           injection H as <-.
           apply RTMBroker_Close_ret in H3 as (Hp & Hc & _).
           rewrite (PipeReader_Close_again (Some pr) wc)
             by (eapply rdone_pipes; [exact Hp|apply Hrr, Hra]).
           rewrite (PipeWriter_Close_again (Some pw) wc)
             by (eapply wdone_pipes; [exact Hp|exact Hwb]).
           destruct (RTMBroker_Close_again _ _ Hc) as (e4 & wd & H4 & Hp4 & _).
           rewrite H4. exists None, wd. repeat split; [exact Hp4|constructor].
        -- injection H as <-.
           rewrite (PipeReader_Close_again (Some pr) wb) by (apply Hrr, Hra).
           rewrite (PipeWriter_Close_again (Some pw) wb) by exact Hwb.
           exists None, wb. repeat split. constructor.
      * destruct (sl_broker s) as [bp|] eqn:Eb.
        -- destruct (RTMBroker_Close (Some bp) wa) as [[e3 wc]|] eqn:H3; [|discriminate].
           injection H as <-.
           apply RTMBroker_Close_ret in H3 as (Hp & Hc & _).
           rewrite (PipeReader_Close_again (Some pr) wc)
             by (eapply rdone_pipes; [exact Hp|exact Hra]).
           destruct (RTMBroker_Close_again _ _ Hc) as (e4 & wd & H4 & Hp4 & _).
           rewrite H4. exists None, wd. repeat split; [exact Hp4|constructor].
        -- injection H as <-.
           rewrite (PipeReader_Close_again (Some pr) wa) by exact Hra.
           exists None, wa. repeat split. constructor.
    + destruct (readPipeWriter s) as [pw|] eqn:Epw.
      * destruct (PipeWriter_Close (Some pw) w) as [[e2 wb]|] eqn:H2; [|discriminate].
        apply PipeWriter_Close_ret in H2 as (_ & Hbb & Hwb & _ & _).
        destruct (sl_broker s) as [bp|] eqn:Eb.
        -- destruct (RTMBroker_Close (Some bp) wb) as [[e3 wc]|] eqn:H3; [|discriminate].
           injection H as <-.
           apply RTMBroker_Close_ret in H3 as (Hp & Hc & _).
           rewrite (PipeWriter_Close_again (Some pw) wc)
             by (eapply wdone_pipes; [exact Hp|exact Hwb]).
           destruct (RTMBroker_Close_again _ _ Hc) as (e4 & wd & H4 & Hp4 & _).
           rewrite H4. exists None, wd. repeat split; [exact Hp4|constructor].
        -- injection H as <-.
           rewrite (PipeWriter_Close_again (Some pw) wb) by exact Hwb.
           exists None, wb. repeat split. constructor.
      * destruct (sl_broker s) as [bp|] eqn:Eb.
        -- destruct (RTMBroker_Close (Some bp) w) as [[e3 wc]|] eqn:H3; [|discriminate].
           injection H as <-.
           apply RTMBroker_Close_ret in H3 as (Hp & Hc & _).
           destruct (RTMBroker_Close_again _ _ Hc) as (e4 & wd & H4 & Hp4 & _).
           rewrite H4. exists None, wd. repeat split; [exact Hp4|constructor].
        -- injection H as <-. exists None, w. repeat split. constructor.
Qed.

End ClosingAdapters.

Lemma second_close_reports_only_already_closed_witness :
  exists w1,
    Close (ReadOnly sampleReader) sampleWorld = Ret (None, w1) /\
    exists e2 w2,
      Close (ReadOnly sampleReader) w1 = Ret (e2, w2) /\
      pipes w2 = pipes w1 /\
      alreadyClosedOnly w1 e2.
Proof.
  eexists. split; [reflexivity|].
  apply (second_close_reports_only_already_closed (ReadOnly sampleReader) sampleWorld).
  reflexivity.
Defined.

(** The duplex close on an adapter as [NewReaderWriter] builds it, where
    the reader and the adapter hold the same session: the session is closed
    twice. *)
Lemma ReaderWriter_Close_shared (c : readerWriterCommon) (i pr : ptr)
    (br : RTMBroker) (p : Pipe) (w : World) :
  broker c = Some i ->
  brokers w !! i = Some br ->
  pipes w !! pr = Some p ->
  ReaderWriter_Close
    {| rw_common := Some c;
       rw_Reader := {| r_common := Some c; pipeReader := Some pr; pipeWriter := Some pr |};
       rw_Writer := {| w_common := Some c |} |} w =
  Ret (ReturnValue [closeAnswer br (closeCalls br); closeAnswer br (S (closeCalls br))],
       {| brokers := <[i := noteClose (noteClose br)]> (brokers w);
          pipes := <[pr := closeWrite (closeRead p None) None]> (pipes w) |}).
Proof.
  intros Hc Hb Hp.
  assert (Hi : i < length (brokers w)) by (eapply lookup_lt_Some, Hb).
  assert (Hpr : pr < length (pipes w)) by (eapply lookup_lt_Some, Hp).
  unfold ReaderWriter_Close, Reader_Close, readerWriterCommon_Close, bind,
    PipeReader_Close, PipeWriter_Close, ret.
  cbn [rw_Reader rw_common r_common pipeReader pipeWriter].
  rewrite (withPipe_at pr p _ w Hp).
  rewrite (withPipe_at pr (closeRead p None) _
             {| brokers := brokers w; pipes := <[pr := closeRead p None]> (pipes w) |}
             (list_lookup_insert_eq _ _ _ Hpr)).
  cbn [brokers pipes]. rewrite Hc.
  rewrite (RTMBroker_Close_at i br
             {| brokers := brokers w;
                pipes := <[pr := closeWrite (closeRead p None) None]>
                           (<[pr := closeRead p None]> (pipes w)) |} Hb).
  cbn [brokers pipes].
  rewrite (RTMBroker_Close_at i (noteClose br)
             {| brokers := <[i := noteClose br]> (brokers w);
                pipes := <[pr := closeWrite (closeRead p None) None]>
                           (<[pr := closeRead p None]> (pipes w)) |}
             (list_lookup_insert_eq _ _ _ Hi)).
  cbn [brokers pipes closeAnswer closeCalls noteClose].
  rewrite !list_insert_insert_eq. reflexivity.
Qed.

(** C2 on the code: one call of the duplex close on an adapter built by
    [NewReaderWriter] closes the session twice.  [Reader.Close] closes the
    pipe and then the shared session; [ReaderWriter.Close] then closes the
    same session again.  On a session that answers the second close with an
    error, the call returns a non-nil aggregate although the conduit close
    and the first session close succeeded. *)
Example ReaderWriter_Close_closes_session_twice :
  NewReaderWriter (fun _ _ => sampleClient) EmptyString "token" "general" emptyWorld
    = Ret ((Some sampleReaderWriter, None), sampleWorld) /\
  ReaderWriter_Close sampleReaderWriter sampleWorld =
  Ret (Some (ErrSet [None; Some useOfClosed]),
       {| brokers := [noteClose (noteClose sampleSession)];
          pipes := [ {| rerr := Some ErrClosedPipe; werr := Some EOF |} ] |}) /\
  closeCalls (noteClose (noteClose sampleSession)) = 2.
Proof. repeat split. Qed.

(** * Further properties of the code *)

(** ** Construction *)

Lemma rangeChannels_found (channels : list SlackChannel) (channelName : string) :
  rangeChannels channels channelName <> EmptyString ->
  exists ch,
    ch ∈ channels /\ Name ch = channelName /\
    ID ch = rangeChannels channels channelName.
Proof.
  induction channels as [|c channels IH]; cbn; [congruence|].
  destruct (String.eqb (Name c) channelName) eqn:Hc.
  - intros _. exists c. apply String.eqb_eq in Hc.
    repeat split; [left|exact Hc].
  - intros Hne. destruct (IH Hne) as (ch & Hin & Hn & Hid).
    exists ch. repeat split; [right; exact Hin|exact Hn|exact Hid].
Qed.

(** Every way through [newIface]. *)
Lemma newIface_shape (slack : Service) (url token channelName : string) (w : World) :
  (exists err,
     newIface slack url token channelName w = Ret ((None, Some err), w) /\
     (ChannelsList (slack token url) = inr err \/
      (exists channels,
         ChannelsList (slack token url) = inl channels /\
         (rangeChannels channels channelName = EmptyString /\
          err = cannotFindChannel channelName \/
          rangeChannels channels channelName <> EmptyString /\
          (RunMethod (slack token url) "auth.test" = inr err \/
           exists authBuf,
             RunMethod (slack token url) "auth.test" = inl authBuf /\
             RTMStart (slack token url) = inr err))))) \/
  (exists err channels authBuf br,
     newIface slack url token channelName w =
       Ret ((None, Some err), {| brokers := brokers w ++ [br]; pipes := pipes w |}) /\
     ChannelsList (slack token url) = inl channels /\
     rangeChannels channels channelName <> EmptyString /\
     RunMethod (slack token url) "auth.test" = inl authBuf /\
     RTMStart (slack token url) = inl br /\
     connectAnswer br = Some err) \/
  (exists channels authBuf br,
     newIface slack url token channelName w =
       Ret ((Some {| channelID := rangeChannels channels channelName;
                     selfUserID := fst (Unmarshal (slack token url) authBuf);
                     broker := Some (length (brokers w)) |}, None),
            {| brokers := brokers w ++ [br]; pipes := pipes w |}) /\
     ChannelsList (slack token url) = inl channels /\
     rangeChannels channels channelName <> EmptyString /\
     RunMethod (slack token url) "auth.test" = inl authBuf /\
     RTMStart (slack token url) = inl br /\
     connectAnswer br = None).
Proof.
  unfold newIface.
  destruct (ChannelsList (slack token url)) as [channels|err] eqn:Hl;
    [|left; eauto].
  destruct (String.eqb (rangeChannels channels channelName) EmptyString) eqn:Hid.
  { apply String.eqb_eq in Hid. left. eexists. split; [reflexivity|].
    right. exists channels. split; [reflexivity|]. left. auto. }
  apply String.eqb_neq in Hid.
  destruct (RunMethod (slack token url) "auth.test") as [authBuf|err] eqn:Ha.
  2:{ left. eexists. split; [reflexivity|]. right. exists channels. eauto. }
  destruct (Unmarshal (slack token url) authBuf) as [UserID decodeErr] eqn:Hu.
  destruct (RTMStart (slack token url)) as [br|err] eqn:Hs.
  2:{ left. eexists. split; [reflexivity|]. right. exists channels.
      split; [reflexivity|]. right. split; [exact Hid|]. right. eauto. }
  unfold bind, NewRTMBroker, RTMBroker_Connect, ret. cbn.
  rewrite list_lookup_middle by reflexivity.
  destruct (connectAnswer br) as [err|] eqn:Hc.
  - right. left. exists err, channels, authBuf, br. auto 10.
  - right. right. exists channels, authBuf, br. rewrite Hu. auto 10.
Qed.

(** X1: [newIface] never panics and returns either an error and no
    binding, or a binding and no error.  A returned binding has a non-empty
    [channelID] that is the [ID] of a listed channel with the configured
    name, and its [broker] points at the one session the call added to the
    store, which is the session [RTMStart] described and whose [Connect]
    succeeded.  In every case the sessions and pipes that were there are
    left as they were. *)
Theorem newIface_binding_or_error (slack : Service)
    (url token channelName : string) (w : World) :
  exists r w',
    newIface slack url token channelName w = Ret (r, w') /\
    pipes w' = pipes w /\
    brokers w `prefix_of` brokers w' /\
    ((exists err, r = (None, Some err)) \/
     (exists c channels ch br,
        r = (Some c, None) /\
        ChannelsList (slack token url) = inl channels /\
        ch ∈ channels /\ Name ch = channelName /\ ID ch = channelID c /\
        channelID c <> EmptyString /\
        RTMStart (slack token url) = inl br /\ connectAnswer br = None /\
        broker c = Some (length (brokers w)) /\
        brokers w' = brokers w ++ [br])).
Proof.
  destruct (newIface_shape slack url token channelName w)
    as [(err & Hn & _)|[(err & channels & authBuf & br & Hn & _)
                       |(channels & authBuf & br & Hn & Hl & Hid & Ha & Hs & Hc)]];
    rewrite Hn; eexists _, _; (split; [reflexivity|]); cbn [pipes brokers].
  - repeat split; [exists []; rewrite app_nil_r; reflexivity|left; eauto].
  - repeat split; [eexists; reflexivity|left; eauto].
  - repeat split; [eexists; reflexivity|right].
    destruct (rangeChannels_found channels channelName Hid) as (ch & Hin & Hname & Hch).
    eexists _, channels, ch, br. cbn [channelID broker]. auto 10.
Qed.

(** X2: [New] follows [newIface] step for step except where the identity
    lookup fails.  When construction reaches the identity lookup and
    [auth.test] fails, [newIface] returns that error and [New] panics with
    it.  In every other case [New] returns what [newIface] returns, with
    the same store: the same error and no adapter, or the [Slack] that
    holds the returned binding, with no pipe yet. *)
Theorem New_follows_newIface (slack : Service) (url token channel : string) (w : World) :
  (forall err,
     identityLookupFails (slack token url) channel err ->
     newIface slack url token channel w = Ret ((None, Some err), w) /\
     New slack url token channel w = Panic err) /\
  ((forall err, ~ identityLookupFails (slack token url) channel err) ->
   forall c e w',
     newIface slack url token channel w = Ret ((c, e), w') ->
     New slack url token channel w =
       Ret ((option_map (slackOf url token channel) c, e), w')).
Proof.
  split.
  - intros err (channels & Hl & Hid & Ha).
    exact (identity_lookup_failure slack url token channel channels err w Hl Hid Ha).
  - intros Hno. unfold New, Slack_init, newIface, slackOf, bind, ret. cbn.
    destruct (ChannelsList (slack token url)) as [channels|e0] eqn:Hl; cbn;
      [|intros ? ? ? H; injection H as <- <- <-; reflexivity].
    destruct (String.eqb (rangeChannels channels channel) EmptyString) eqn:Hid; cbn;
      [intros ? ? ? H; injection H as <- <- <-; reflexivity|].
    apply String.eqb_neq in Hid.
    destruct (RunMethod (slack token url) "auth.test") as [authBuf|e0] eqn:Ha; cbn.
    2:{ destruct (Hno e0). exists channels. auto. }
    destruct (Unmarshal (slack token url) authBuf) as [UserID decodeErr].
    destruct (RTMStart (slack token url)) as [br|e0]; cbn;
      [|intros ? ? ? H; injection H as <- <- <-; reflexivity].
    unfold NewRTMBroker, RTMBroker_Connect. cbn.
    rewrite list_lookup_middle by reflexivity.
    destruct (connectAnswer br) as [e0|]; cbn;
      intros ? ? ? H; injection H as <- <- <-; reflexivity.
Qed.

Lemma New_follows_newIface_witness :
  (identityLookupFails authDown "general" authError /\
   New (fun _ _ => authDown) EmptyString "token" "general" emptyWorld
     = Panic authError) /\
  (newIface (fun _ _ => sampleClient) EmptyString "token" "general" emptyWorld
     = Ret ((Some sampleCommon, None), {| brokers := [sampleSession]; pipes := [] |}) /\
   New (fun _ _ => sampleClient) EmptyString "token" "general" emptyWorld
     = Ret ((Some (slackOf EmptyString "token" "general" sampleCommon), None),
            {| brokers := [sampleSession]; pipes := [] |})).
Proof.
  assert (Hf : identityLookupFails authDown "general" authError).
  { exists sampleChannels. repeat split. discriminate. }
  split.
  - split; [exact Hf|].
    exact (proj2 (proj1 (New_follows_newIface (fun _ _ => authDown)
                           EmptyString "token" "general" emptyWorld)
                    authError Hf)).
  - split; [reflexivity|].
    assert (Hno : forall err, ~ identityLookupFails sampleClient "general" err).
    { intros err (channels & _ & _ & H). discriminate H. }
    exact (proj2 (New_follows_newIface (fun _ _ => sampleClient)
                    EmptyString "token" "general" emptyWorld)
             Hno (Some sampleCommon) None
             {| brokers := [sampleSession]; pipes := [] |} eq_refl).
Defined.

(** X3: what the three constructors hand out.  An adapter returned by
    [NewReaderWriter] holds one binding, shared by the adapter, its reader
    half and its writer half, and one new open pipe whose two ends the
    reader half holds; [NewReader] returns a binding with one new pipe;
    [NewWriter] returns a binding and creates no pipe.  Each adds to the
    store exactly what [newIface] added, plus that pipe. *)
Theorem constructors_share_one_binding (slack : Service)
    (url token channel : string) (w : World) :
  (forall rw w',
     NewReaderWriter slack url token channel w = Ret ((Some rw, None), w') ->
     exists c,
       newIface slack url token channel w =
         Ret ((Some c, None), {| brokers := brokers w'; pipes := pipes w |}) /\
       rw = {| rw_common := Some c;
               rw_Reader := {| r_common := Some c;
                               pipeReader := Some (length (pipes w));
                               pipeWriter := Some (length (pipes w)) |};
               rw_Writer := {| w_common := Some c |} |} /\
       pipes w' = pipes w ++ [newPipe]) /\
  (forall r w',
     NewReader slack url token channel w = Ret ((Some r, None), w') ->
     exists c,
       newIface slack url token channel w =
         Ret ((Some c, None), {| brokers := brokers w'; pipes := pipes w |}) /\
       r = {| r_common := Some c;
              pipeReader := Some (length (pipes w));
              pipeWriter := Some (length (pipes w)) |} /\
       pipes w' = pipes w ++ [newPipe]) /\
  (forall wr w',
     NewWriter slack url token channel w = Ret ((Some wr, None), w') ->
     exists c,
       newIface slack url token channel w = Ret ((Some c, None), w') /\
       wr = {| w_common := Some c |}).
Proof.
  unfold NewReaderWriter, NewReader, NewWriter, Reader_init, io_Pipe, bind, ret.
  destruct (newIface_shape slack url token channel w)
    as [(err & Hn & _)|[(err & channels & authBuf & br & Hn & _)
                       |(channels & authBuf & br & Hn & _)]];
    rewrite Hn; cbn; repeat split; intros ? ? H; try discriminate H;
    injection H as <- <-; eexists; repeat split.
Qed.

Lemma constructors_share_one_binding_witness :
  exists c,
    newIface (fun _ _ => sampleClient) EmptyString "token" "general" emptyWorld =
      Ret ((Some c, None), {| brokers := brokers sampleWorld; pipes := [] |}) /\
    sampleReaderWriter =
      {| rw_common := Some c;
         rw_Reader := {| r_common := Some c; pipeReader := Some 0; pipeWriter := Some 0 |};
         rw_Writer := {| w_common := Some c |} |} /\
    pipes sampleWorld = [] ++ [newPipe].
Proof.
  apply (proj1 (constructors_share_one_binding (fun _ _ => sampleClient)
                  EmptyString "token" "general" emptyWorld)).
  reflexivity.
Defined.

(** ** The lazily initialised Slack *)

(** X4: a [Slack] that was not built by [New] initialises on its first
    [Write].  If that fails at [Connect], the write returns zero and the
    connect error and publishes nothing, but the broker is already stored
    in the [Slack]; the next [Write] therefore skips the initialisation,
    does not report the error again, and publishes on the session that was
    never connected, returning whatever that publish answers. *)
Theorem write_after_failed_connect_skips_init (slack : Service) (s : Slack)
    (channels : list SlackChannel) (authBuf : list byte) (br : RTMBroker)
    (err : error) (p p2 : list byte) (w : World) :
  sl_broker s = None ->
  ChannelsList (slack (Token s) (URL s)) = inl channels ->
  rangeChannels channels (sl_Channel s) <> EmptyString ->
  RunMethod (slack (Token s) (URL s)) "auth.test" = inl authBuf ->
  RTMStart (slack (Token s) (URL s)) = inl br ->
  connectAnswer br = Some err ->
  let s1 := set_broker
              (set_selfUserID
                 (set_channelID s (rangeChannels channels (sl_Channel s)))
                 (fst (Unmarshal (slack (Token s) (URL s)) authBuf)))
              (Some (length (brokers w))) in
  let w1 := {| brokers := brokers w ++ [br]; pipes := pipes w |} in
  let m := outgoing (rangeChannels channels (sl_Channel s)) p2 in
  Slack_Write slack s p w = Ret ((s1, (0, Some err)), w1) /\
  Slack_Write slack s1 p2 w1 =
    Ret ((s1, match publishAnswer br (publishCalls br) (closeCalls br) m with
              | Some e => (0, Some e)
              | None => (length p2, None)
              end),
         {| brokers := brokers w ++ [notePublish br m]; pipes := pipes w |}).
Proof.
  intros Hb Hl Hid Ha Hs Hc s1 w1 m. apply String.eqb_neq in Hid. split.
  - unfold Slack_Write, Slack_initWrite, Slack_init, bind, ret.
    rewrite Hb. cbn. rewrite Hl. cbn. rewrite Hid, Ha.
    destruct (Unmarshal (slack (Token s) (URL s)) authBuf) as [UserID decodeErr].
    rewrite Hs. unfold NewRTMBroker, RTMBroker_Connect. cbn.
    rewrite list_lookup_middle by reflexivity. rewrite Hc. reflexivity.
  - unfold Slack_Write, Slack_initWrite, Slack_init, bind, ret. cbn.
    unfold RTMBroker_Publish. cbn.
    rewrite list_lookup_middle by reflexivity.
    fold m. rewrite insert_app_r_alt, Nat.sub_diag by lia. cbn.
    destruct (publishAnswer br (publishCalls br) (closeCalls br) m); reflexivity.
Qed.

Lemma write_after_failed_connect_skips_init_witness :
  exists s1 w1,
    Slack_Write (fun _ _ => connectDown) literalSlack (list_byte_of_string "one")
      emptyWorld = Ret ((s1, (0, Some connectError)), w1) /\
    Slack_Write (fun _ _ => connectDown) s1 (list_byte_of_string "two") w1 =
      Ret ((s1, (3, None)),
           {| brokers := [notePublish unconnected
                            (outgoing "general-id" (list_byte_of_string "two"))];
              pipes := [] |}).
Proof.
  eexists _, _.
  apply (write_after_failed_connect_skips_init (fun _ _ => connectDown) literalSlack
           sampleChannels (list_byte_of_string "{user_id:U1}") unconnected
           connectError (list_byte_of_string "one") (list_byte_of_string "two")
           emptyWorld); try reflexivity.
  discriminate.
Defined.

(** X5: the read side of a constructed [Slack] is started at most once.
    The first [initRead] creates one open pipe and stores its two ends;
    every later [initRead] changes neither the [Slack] nor the store, so no
    second pipe (and no second goroutine) is made. *)
Theorem initRead_starts_once (slack : Service) (s : Slack) (i : ptr) (w : World) :
  sl_broker s = Some i ->
  readPipeWriter s = None ->
  let s1 := set_readPipe s (Some (length (pipes w)), Some (length (pipes w))) in
  let w1 := {| brokers := brokers w; pipes := pipes w ++ [newPipe] |} in
  Slack_initRead slack s w = Ret ((s1, None), w1) /\
  forall slack' w2, Slack_initRead slack' s1 w2 = Ret ((s1, None), w2).
Proof.
  intros Hb Hp s1 w1.
  unfold Slack_initRead, Slack_init, bind, ret, io_Pipe. split.
  - rewrite Hb, Hp. reflexivity.
  - intros slack' w2. cbn. rewrite Hb. reflexivity.
Qed.

Lemma initRead_starts_once_witness :
  Slack_initRead (fun _ _ => sampleClient)
    (slackOf EmptyString "token" "general" sampleCommon)
    {| brokers := [sampleSession]; pipes := [] |} =
  Ret ((set_readPipe (slackOf EmptyString "token" "general" sampleCommon)
          (Some 0, Some 0), None),
       sampleWorld).
Proof.
  exact (proj1 (initRead_starts_once (fun _ _ => sampleClient)
                  (slackOf EmptyString "token" "general" sampleCommon) 0
                  {| brokers := [sampleSession]; pipes := [] |} eq_refl eq_refl)).
Defined.

(** ** What the closes do *)

Lemma closedConduit_open (p : Pipe) :
  done p = false -> closedConduit p = {| rerr := Some ErrClosedPipe; werr := Some EOF |}.
Proof. intros H. apply done_newPipe in H. subst p. reflexivity. Qed.

Lemma reader_body_rerr (channelID selfUserID : string) (event : RTMEvent) (p : Pipe) :
  rerr (fst (reader_body channelID selfUserID event p)) = rerr p.
Proof.
  unfold reader_body, Fprintf.
  destruct (String.eqb (ev_Type event) "message"); [|reflexivity].
  destruct (ev_Message event) as [msg err].
  assert (Hr : rerr (match err with
                     | Some e => closeWrite p (Some e)
                     | None => p
                     end) = rerr p) by (destruct err; reflexivity).
  destruct msg as [m|]; [|exact Hr].
  destruct (negb (String.eqb (Channel m) channelID)); [exact Hr|].
  destruct (String.eqb (User m) selfUserID); [exact Hr|].
  destruct (done _); exact Hr.
Qed.

(** No step of the goroutine and no read touches the read-side error. *)
Lemma act_rerr (channelID selfUserID : string) (a : action) (s : Sys) :
  rerr (conduit (act channelID selfUserID a s)) = rerr (conduit s).
Proof.
  destruct a as [|n]; cbn.
  - unfold reader_step. destruct (consumer s); cbn; auto.
    + destruct (recv (events s)) as [[event ch]|]; cbn; auto.
      pose proof (reader_body_rerr channelID selfUserID event (conduit s)) as Hb.
      destruct (reader_body channelID selfUserID event (conduit s)) as [p g].
      exact Hb.
    + destruct (done (conduit s)); reflexivity.
  - unfold Read.
    destruct (consumer s); destruct (done (conduit s)); reflexivity.
Qed.

Lemma exec_rerr (channelID selfUserID : string) (sched : list action) (s : Sys) :
  rerr (conduit (exec channelID selfUserID sched s)) = rerr (conduit s).
Proof.
  revert s. induction sched as [|a sched IH]; intros s; cbn; [reflexivity|].
  rewrite IH. apply act_rerr.
Qed.

(** X6: on an adapter as the constructors build it, [Reader.Close] closes
    the session once and returns exactly what the session's [Close]
    answered (the pipe closes report nothing), and leaves both ends of its
    pipe closed; [Writer.Close] closes the session once, returns its answer
    and touches no pipe.  On the read path, whatever the goroutine and the
    reads do between the close of the read end and the close of the write
    end, afterwards both ends are closed, the read side holds the error
    the first close left, and no byte has been added; the error on the
    write side depends on the interleaving: [io.EOF] when nothing ran in
    between, [io.ErrClosedPipe] when a goroutine blocked in a write ran. *)
Theorem Reader_and_Writer_Close_effect (c : readerWriterCommon) (i pr : ptr)
    (br : RTMBroker) (p : Pipe) (w : World)
    (channelID selfUserID : string) (s : Sys) (sched : list action) :
  broker c = Some i ->
  brokers w !! i = Some br ->
  pipes w !! pr = Some p ->
  (exists p',
     Reader_Close {| r_common := Some c; pipeReader := Some pr; pipeWriter := Some pr |} w =
       Ret (closeAnswer br (closeCalls br),
            {| brokers := <[i := noteClose br]> (brokers w);
               pipes := <[pr := p']> (pipes w) |}) /\
     is_Some (rerr p') /\ is_Some (werr p')) /\
  Writer_Close {| w_common := Some c |} w =
    Ret (closeAnswer br (closeCalls br),
         {| brokers := <[i := noteClose br]> (brokers w); pipes := pipes w |}) /\
  (let s' := closeWriteEnd (exec channelID selfUserID sched (closeReadEnd s)) in
   is_Some (werr (conduit s')) /\
   rerr (conduit s') = rerr (conduit (closeReadEnd s)) /\
   is_Some (rerr (conduit s')) /\
   readPath s' = readPath s) /\
  (forall ch b out,
     let blocked := {| events := ch; conduit := newPipe;
                       consumer := Writing b; readPath := out |} in
     werr (conduit (closeWriteEnd (closeReadEnd blocked))) = Some EOF /\
     werr (conduit (closeWriteEnd
                      (act channelID selfUserID Consumer (closeReadEnd blocked))))
       = Some ErrClosedPipe).
Proof.
  intros Hc Hb Hp.
  assert (Hpr : pr < length (pipes w)) by (eapply lookup_lt_Some, Hp).
  split; [|split; [|split]].
  - exists (closedConduit p). split; [|split; apply is_Some_onceStore].
    unfold Reader_Close, readerWriterCommon_Close, bind,
      PipeReader_Close, PipeWriter_Close.
    cbn [r_common pipeReader pipeWriter].
    rewrite (withPipe_at pr p _ w Hp).
    rewrite (withPipe_at pr (closeRead p None) _
               {| brokers := brokers w; pipes := <[pr := closeRead p None]> (pipes w) |}
               (list_lookup_insert_eq _ _ _ Hpr)).
    cbn [brokers pipes]. rewrite Hc.
    rewrite (RTMBroker_Close_at i br
               {| brokers := brokers w;
                  pipes := <[pr := closeWrite (closeRead p None) None]>
                             (<[pr := closeRead p None]> (pipes w)) |} Hb).
    cbn [brokers pipes]. rewrite list_insert_insert_eq. reflexivity.
  - unfold Writer_Close, readerWriterCommon_Close. cbn [w_common]. rewrite Hc.
    apply (RTMBroker_Close_at i br w Hb).
  - intros s'. subst s'. cbn [closeWriteEnd conduit readPath werr rerr closeWrite].
    assert (Hd : done (conduit (closeReadEnd s)) = true) by apply done_closeRead.
    destruct (exec_done channelID selfUserID sched (closeReadEnd s) Hd) as [_ Hr].
    pose proof (exec_rerr channelID selfUserID sched (closeReadEnd s)) as Hrr.
    repeat split.
    + apply is_Some_onceStore.
    + exact Hrr.
    + rewrite Hrr. apply is_Some_onceStore.
    + exact Hr.
  - intros ch b out blocked. split; reflexivity.
Qed.

Lemma Reader_and_Writer_Close_effect_witness :
  exists p',
    Reader_Close sampleReader sampleWorld =
      Ret (None, {| brokers := [noteClose sampleSession];
                    pipes := <[0 := p']> [newPipe] |}) /\
    is_Some (rerr p') /\ is_Some (werr p').
Proof.
  exact (proj1 (Reader_and_Writer_Close_effect sampleCommon 0 0 sampleSession
                  newPipe sampleWorld "general-id" "U1"
                  (init [helloFromU2] false) [Consumer]
                  eq_refl eq_refl eq_refl)).
Defined.

(** X7: [Slack.Close] never reports an error.  It returns nil whenever it
    returns, and on a constructed [Slack] it closes the session once and
    drops whatever the session's [Close] answered; with the read side
    started it also closes both ends of the pipe. *)
Theorem Slack_Close_drops_errors (s : Slack) (i : ptr) (br : RTMBroker) (w : World) :
  (forall e w', Slack_Close s w = Ret (e, w') -> e = None) /\
  (sl_broker s = Some i -> brokers w !! i = Some br ->
   readPipeReader s = None -> readPipeWriter s = None ->
   Slack_Close s w =
     Ret (None, {| brokers := <[i := noteClose br]> (brokers w); pipes := pipes w |})) /\
  (forall pr p,
     sl_broker s = Some i -> brokers w !! i = Some br ->
     readPipeReader s = Some pr -> readPipeWriter s = Some pr ->
     pipes w !! pr = Some p ->
     Slack_Close s w =
       Ret (None, {| brokers := <[i := noteClose br]> (brokers w);
                     pipes := <[pr := closedConduit p]> (pipes w) |})).
Proof.
  repeat split.
  - intros e w'. unfold Slack_Close, bind, ret.
    destruct (match readPipeReader s with
              | Some _ => PipeReader_Close (readPipeReader s)
              | None => fun w0 => Ret (None, w0)
              end w) as [[e1 w1]|]; [|discriminate].
    destruct (match readPipeWriter s with
              | Some _ => PipeWriter_Close (readPipeWriter s)
              | None => fun w0 => Ret (None, w0)
              end w1) as [[e2 w2]|]; [|discriminate].
    destruct (match sl_broker s with
              | Some _ => RTMBroker_Close (sl_broker s)
              | None => fun w0 => Ret (None, w0)
              end w2) as [[e3 w3]|]; [|discriminate].
    intros H. injection H as <- _. reflexivity.
  - intros Hb Hl Hr Hw. unfold Slack_Close, bind, ret.
    rewrite Hr, Hw, Hb. rewrite (RTMBroker_Close_at i br w Hl). reflexivity.
  - intros pr p Hb Hl Hr Hw Hp.
    assert (Hpr : pr < length (pipes w)) by (eapply lookup_lt_Some, Hp).
    unfold Slack_Close, bind, ret, PipeReader_Close, PipeWriter_Close.
    rewrite Hr, Hw, Hb.
    rewrite (withPipe_at pr p _ w Hp).
    rewrite (withPipe_at pr (closeRead p None) _
               {| brokers := brokers w; pipes := <[pr := closeRead p None]> (pipes w) |}
               (list_lookup_insert_eq _ _ _ Hpr)).
    cbn [brokers pipes].
    rewrite (RTMBroker_Close_at i br
               {| brokers := brokers w;
                  pipes := <[pr := closeWrite (closeRead p None) None]>
                             (<[pr := closeRead p None]> (pipes w)) |} Hl).
    cbn [brokers pipes]. rewrite list_insert_insert_eq. reflexivity.
Qed.

Lemma Slack_Close_drops_errors_witness :
  closeAnswer (noteClose sampleSession) 1 = Some useOfClosed /\
  Slack_Close (slackOf EmptyString "token" "general" sampleCommon)
    {| brokers := [noteClose sampleSession]; pipes := [] |} =
  Ret (None, {| brokers := [noteClose (noteClose sampleSession)]; pipes := [] |}).
Proof.
  split; [reflexivity|].
  exact (proj1 (proj2 (Slack_Close_drops_errors
                         (slackOf EmptyString "token" "general" sampleCommon)
                         0 (noteClose sampleSession)
                         {| brokers := [noteClose sampleSession]; pipes := [] |}))
           eq_refl eq_refl eq_refl eq_refl).
Defined.

(** ** The read path around a close *)

Lemma done_closedConduit (p : Pipe) : done (closedConduit p) = true.
Proof. apply done_closeWrite. Qed.

Lemma readCloseError_closedConduit (p : Pipe) :
  readCloseError (closedConduit p) = ErrClosedPipe.
Proof. destruct p as [[r|] [w0|]]; reflexivity. Qed.

Lemma closeWrite_closedConduit (p : Pipe) (err : option error) :
  closeWrite (closedConduit p) err = closedConduit p.
Proof. apply closeWrite_again. Qed.

(** X8: once the adapter's close has closed the pipe, every [Read] returns
    no bytes and [io.ErrClosedPipe] (not [io.EOF]), whatever error the
    goroutine had closed the pipe with before; no schedule adds a byte to
    the read path any more; and a goroutine that was blocked in a write
    gives that write up and returns, so the bytes in flight are dropped
    and the queued events stay untaken. *)
Theorem read_after_close_fails (channelID selfUserID : string) (s : Sys) (n : nat) :
  consumer s <> Panicked ->
  Read n (closeReadPath s) = Some (closeReadPath s, ([], Some ErrClosedPipe)) /\
  (forall sched,
     readPath (exec channelID selfUserID sched (closeReadPath s)) = readPath s) /\
  (forall b,
     consumer s = Writing b ->
     reader_step channelID selfUserID (closeReadPath s) =
     Some {| events := events s; conduit := closedConduit (conduit s);
             consumer := Returned; readPath := readPath s |}).
Proof.
  intros Hc. repeat split.
  - unfold Read. cbn [closeReadPath consumer conduit].
    rewrite done_closedConduit, readCloseError_closedConduit.
    destruct (consumer s); [reflexivity..|contradiction].
  - intros sched.
    destruct (exec_done channelID selfUserID sched (closeReadPath s)
                (done_closedConduit (conduit s))) as [_ H].
    exact H.
  - intros b Hb. unfold reader_step. cbn [closeReadPath consumer conduit events readPath].
    rewrite Hb, done_closedConduit, closeWrite_closedConduit. reflexivity.
Qed.

Lemma read_after_close_fails_witness :
  Read 16 (closeReadPath {| events := {| queue := [byeFromU3]; closed := false |};
                            conduit := newPipe;
                            consumer := Writing (line "hello");
                            readPath := [] |}) =
  Some ({| events := {| queue := [byeFromU3]; closed := false |};
           conduit := {| rerr := Some ErrClosedPipe; werr := Some EOF |};
           consumer := Writing (line "hello");
           readPath := [] |},
        ([], Some ErrClosedPipe)).
Proof.
  destruct (read_after_close_fails "general-id" "U1"
              {| events := {| queue := [byeFromU3]; closed := false |};
                 conduit := newPipe;
                 consumer := Writing (line "hello");
                 readPath := [] |} 16) as [H _]; [discriminate|exact H].
Defined.

(** The loop body on an event that parses, on any pipe. *)
Lemma reader_body_parses (channelID selfUserID : string) (e : RTMEvent) (p : Pipe) :
  parses e = true ->
  reader_body channelID selfUserID e p =
  match accepted channelID selfUserID e with
  | Some text => Fprintf p (line text)
  | None => (p, Receiving)
  end.
Proof.
  unfold parses, reader_body, accepted.
  destruct (String.eqb (ev_Type e) "message"); [|reflexivity].
  destruct (ev_Message e) as [[m|] [err|]]; try discriminate. intros _.
  destruct (String.eqb (Channel m) channelID); cbn; [|reflexivity].
  destruct (String.eqb (User m) selfUserID); reflexivity.
Qed.

(** X9: the close does not stop the goroutine.  On the closed pipe it goes
    on taking events: every event that parses and is filtered out is
    consumed and the goroutine is back at its receive; it returns only at
    the first event that passes the filter, whose write fails, and leaves
    the events after that one untaken. *)
Theorem goroutine_outlives_close (channelID selfUserID : string)
    (q rest : list RTMEvent) (cl : bool) (p : Pipe) (out : list byte) :
  forallb parses q = true ->
  Forall (fun e => accepted channelID selfUserID e = None) q ->
  let s := closeReadPath {| events := {| queue := q ++ rest; closed := cl |};
                            conduit := p; consumer := Receiving; readPath := out |} in
  exec channelID selfUserID (repeat Consumer (length q)) s =
    {| events := {| queue := rest; closed := cl |}; conduit := closedConduit p;
       consumer := Receiving; readPath := out |} /\
  forall e post text,
    rest = e :: post -> parses e = true ->
    accepted channelID selfUserID e = Some text ->
    exec channelID selfUserID (repeat Consumer (S (length q))) s =
      {| events := {| queue := post; closed := cl |}; conduit := closedConduit p;
         consumer := Returned; readPath := out |}.
Proof.
  intros Hp Hq s. subst s. unfold closeReadPath. cbn [events conduit consumer readPath].
  assert (Hrun : forall tail,
            exec channelID selfUserID (repeat Consumer (length q) ++ tail)
              {| events := {| queue := q ++ rest; closed := cl |};
                 conduit := closedConduit p; consumer := Receiving; readPath := out |} =
            exec channelID selfUserID tail
              {| events := {| queue := rest; closed := cl |};
                 conduit := closedConduit p; consumer := Receiving; readPath := out |}).
  { induction Hq as [|e q He _ IH]; intros tail; [reflexivity|].
    cbn in Hp. apply andb_prop in Hp as [Hpe Hpq].
    cbn [length repeat app exec act]. unfold reader_step, recv.
    cbn [consumer events queue closed conduit readPath app].
    rewrite (reader_body_parses channelID selfUserID e _ Hpe), He.
    cbn [default]. apply IH, Hpq. }
  split.
  - rewrite <- (app_nil_r (repeat Consumer (length q))). apply Hrun.
  - intros e post text -> Hpe Ha.
    change (repeat Consumer (S (length q))) with (Consumer :: repeat Consumer (length q)).
    rewrite repeat_cons, Hrun.
    cbn [exec act]. unfold reader_step, recv.
    cbn [consumer events queue closed conduit readPath].
    rewrite (reader_body_parses channelID selfUserID e _ Hpe), Ha.
    unfold Fprintf. rewrite done_closedConduit, closeWrite_closedConduit. reflexivity.
Qed.

Lemma goroutine_outlives_close_witness :
  exec "general-id" "U1" (repeat Consumer 2)
    (closeReadPath (init [ignoredFromSelf; fromElsewhere; helloFromU2] false)) =
  {| events := {| queue := [helloFromU2]; closed := false |};
     conduit := {| rerr := Some ErrClosedPipe; werr := Some EOF |};
     consumer := Receiving; readPath := [] |}.
Proof.
  destruct (goroutine_outlives_close "general-id" "U1"
              [ignoredFromSelf; fromElsewhere] [helloFromU2] false newPipe [])
    as [H _]; [reflexivity|repeat constructor|exact H].
Defined.

(** ** Lines and payloads *)

Lemma list_byte_of_string_app (a b : string) :
  list_byte_of_string (a ++ b) = list_byte_of_string a ++ list_byte_of_string b.
Proof.
  induction a as [|c a IH]; [reflexivity|].
  change (list_byte_of_string (String c a ++ b))
    with (Ascii.byte_of_ascii c :: list_byte_of_string (a ++ b)).
  rewrite IH. reflexivity.
Qed.

Lemma accepted_messageEvent (channelID selfUserID text channel user : string) :
  accepted channelID selfUserID (messageEvent text channel user) =
  if String.eqb channel channelID && negb (String.eqb user selfUserID)
  then Some text else None.
Proof. reflexivity. Qed.

(** X10: message boundaries are not kept.  The loop writes the text as
    it is, so the run of the goroutine and the reads on one message from
    another user on the bound channel whose text is [a], a newline, [b]
    puts on the read path exactly the bytes that the run on two such
    messages with the texts [a] and [b] puts there: the bytes of [a], a
    newline, the bytes of [b], a newline.  A reader cannot tell the two
    apart. *)
Theorem newline_in_text_reads_as_two_messages (channelID selfUserID : string)
    (a b user : string) (cl : bool) :
  user <> selfUserID ->
  let one := [messageEvent (a ++ newline ++ b) channelID user] in
  let two := [messageEvent a channelID user; messageEvent b channelID user] in
  readPath (exec channelID selfUserID (drain channelID selfUserID one) (init one cl))
    = list_byte_of_string a ++ [Byte.x0a] ++ list_byte_of_string b ++ [Byte.x0a] /\
  readPath (exec channelID selfUserID (drain channelID selfUserID two) (init two cl))
    = list_byte_of_string a ++ [Byte.x0a] ++ list_byte_of_string b ++ [Byte.x0a] /\
  (forall sched s,
     s = exec channelID selfUserID sched (init one cl) ->
     queue (events s) = [] -> consumer s = Receiving ->
     readPath s =
       list_byte_of_string a ++ [Byte.x0a] ++ list_byte_of_string b ++ [Byte.x0a]).
Proof.
  intros Hu one two. apply String.eqb_neq in Hu.
  assert (Hacc : forall text,
            accepted channelID selfUserID (messageEvent text channelID user)
            = Some text).
  { intros text. rewrite accepted_messageEvent, String.eqb_refl, Hu. reflexivity. }
  assert (Hone : expected channelID selfUserID one
                 = list_byte_of_string a ++ [Byte.x0a] ++
                   list_byte_of_string b ++ [Byte.x0a]).
  { unfold expected, one. cbn [flat_map]. rewrite Hacc, app_nil_r.
    unfold line. rewrite !list_byte_of_string_app, <- !app_assoc. reflexivity. }
  assert (Htwo : expected channelID selfUserID two
                 = list_byte_of_string a ++ [Byte.x0a] ++
                   list_byte_of_string b ++ [Byte.x0a]).
  { unfold expected, two. cbn [flat_map]. rewrite !Hacc, app_nil_r.
    unfold line. rewrite <- !app_assoc. reflexivity. }
  split; [|split].
  - unfold init. rewrite drain_delivers by reflexivity. exact Hone.
  - unfold init. rewrite drain_delivers by reflexivity. exact Htwo.
  - intros sched s -> Hq Hc.
    destruct (delivering_exec channelID selfUserID _ sched _
                (delivering_init channelID selfUserID one cl eq_refl))
      as (_ & _ & _ & Ht).
    rewrite Hq, Hc in Ht. cbn [inflight expected flat_map] in Ht.
    rewrite !app_nil_r in Ht. rewrite Ht. exact Hone.
Qed.

Lemma newline_in_text_reads_as_two_messages_witness :
  readPath (exec "general-id" "U1"
              (drain "general-id" "U1"
                 [messageEvent ("a" ++ newline ++ "b") "general-id" "U2"])
              (init [messageEvent ("a" ++ newline ++ "b") "general-id" "U2"] false))
  = list_byte_of_string "a" ++ [Byte.x0a] ++ list_byte_of_string "b" ++ [Byte.x0a].
Proof.
  exact (proj1 (newline_in_text_reads_as_two_messages "general-id" "U1" "a" "b" "U2"
                  false ltac:(discriminate))).
Defined.

(** X11: what one adapter writes, another reads back.  When the session
    hands the message published for the payload [p] to a reader bound to
    the same channel under another user's identifier, the read path yields
    the bytes of [p] followed by one newline; handed back to the adapter's
    own identity it yields nothing, under any schedule. *)
Theorem written_payload_reads_back (channelID selfUserID user : string)
    (p : list byte) (cl : bool) :
  user <> selfUserID ->
  readPath (exec channelID selfUserID
              (drain channelID selfUserID [posted (outgoing channelID p) user])
              (init [posted (outgoing channelID p) user] cl))
  = p ++ [Byte.x0a] /\
  forall sched,
    readPath (exec channelID selfUserID sched
                (init [posted (outgoing channelID p) selfUserID] cl))
    = [].
Proof.
  intros Hu. split.
  - unfold init. rewrite drain_delivers by reflexivity.
    cbn [readPath app]. unfold expected. cbn [flat_map].
    unfold accepted, posted, outgoing. cbn.
    rewrite String.eqb_refl. apply String.eqb_neq in Hu. rewrite Hu. cbn.
    unfold line. rewrite list_byte_of_string_of_list_byte, app_nil_r. reflexivity.
  - intros sched.
    destruct (delivering_exec channelID selfUserID _ sched _
                (delivering_init channelID selfUserID
                   [posted (outgoing channelID p) selfUserID] cl eq_refl))
      as (_ & _ & _ & Ht).
    assert (He : expected channelID selfUserID
                   [posted (outgoing channelID p) selfUserID] = []).
    { unfold expected. cbn [flat_map]. unfold accepted, posted, outgoing. cbn.
      rewrite !String.eqb_refl. reflexivity. }
    rewrite He in Ht. apply app_eq_nil in Ht as [Ht _]. exact Ht.
Qed.

Lemma written_payload_reads_back_witness :
  readPath (exec "general-id" "U2"
              (drain "general-id" "U2"
                 [posted (outgoing "general-id" (list_byte_of_string "reply")) "U1"])
              (init [posted (outgoing "general-id" (list_byte_of_string "reply")) "U1"]
                 false))
  = list_byte_of_string "reply" ++ [Byte.x0a].
Proof.
  apply (proj1 (written_payload_reads_back "general-id" "U2" "U1"
                  (list_byte_of_string "reply") false ltac:(discriminate))).
Defined.

(** ** The command line tool *)

(** X12: the mode flags after [main] has adjusted them.  At least one of
    read and write is on; [-tee] is kept, forces write on and read off
    whatever [-read] and [-write] say; without [-tee] the given flags are
    kept when at least one is given and both are turned on when none is;
    adjusting twice changes nothing. *)
Theorem modes_select_a_direction (f : Flags) :
  doRead (modes f) || doWrite (modes f) = true /\
  doTee (modes f) = doTee f /\
  (doTee f = true -> doRead (modes f) = false /\ doWrite (modes f) = true) /\
  (doTee f = false -> doRead f || doWrite f = true -> modes f = f) /\
  (doTee f = false -> doRead f || doWrite f = false ->
   doRead (modes f) = true /\ doWrite (modes f) = true) /\
  modes (modes f) = modes f.
Proof.
  destruct f as [[|] [|] [|]]; cbn; repeat split; intros; try reflexivity;
    discriminate.
Qed.

Lemma modes_select_a_direction_witness :
  modes {| doTee := true; doRead := true; doWrite := false |} =
  {| doTee := true; doRead := false; doWrite := true |} /\
  modes {| doTee := false; doRead := true; doWrite := false |} =
  {| doTee := false; doRead := true; doWrite := false |}.
Proof.
  split.
  - destruct (modes_select_a_direction
                {| doTee := true; doRead := true; doWrite := false |})
      as (_ & _ & H & _).
    destruct (H eq_refl) as [Hr Hw].
    reflexivity.
  - exact (proj1 (proj2 (proj2 (proj2 (modes_select_a_direction
                   {| doTee := false; doRead := true; doWrite := false |}))))
             eq_refl eq_refl).
Defined.

(** X13: the streams [main] connects.  Without arguments it always runs
    at least one copy; with [-tee] that is the single copy of standard
    input, teed to standard output, into the adapter, whatever the other
    flags.  With a command, standard output and standard error of the
    command go to the adapter together or both stay with the process, and
    with [-tee] the command writes to the adapter and reads the teed
    standard input.  With no mode flag the adapter is both ends. *)
Theorem main_streams_by_mode (f : Flags) (cmd : string) (args : list string) :
  (exists c plan, main_streams f [] = inl (c :: plan)) /\
  (doTee f = true ->
   main_streams f [] = inl [io_Copy theSlack (TeeReader os_Stdin os_Stdout)] /\
   main_streams f (cmd :: args) =
     inr {| cmd_Stdout := theSlack; cmd_Stderr := theSlack;
            cmd_Stdin := TeeReader os_Stdin os_Stdout |}) /\
  (exists c,
     main_streams f (cmd :: args) = inr c /\
     (cmd_Stdout c = theSlack /\ cmd_Stderr c = theSlack \/
      cmd_Stdout c = os_Stdout /\ cmd_Stderr c = os_Stderr) /\
     (cmd_Stdin c = theSlack \/ cmd_Stdout c = theSlack)) /\
  (doTee f = false -> doRead f = false -> doWrite f = false ->
   main_streams f [] =
     inl [go_io_Copy os_Stdout theSlack; io_Copy theSlack os_Stdin] /\
   main_streams f (cmd :: args) =
     inr {| cmd_Stdout := theSlack; cmd_Stderr := theSlack; cmd_Stdin := theSlack |}).
Proof.
  destruct f as [[|] [|] [|]]; cbn; repeat split; intros;
    try discriminate; try reflexivity; eauto 8.
Qed.

Lemma main_streams_by_mode_witness :
  main_streams {| doTee := true; doRead := true; doWrite := false |} [] =
    inl [io_Copy theSlack (TeeReader os_Stdin os_Stdout)] /\
  main_streams {| doTee := false; doRead := false; doWrite := false |} ["bash"; "-i"] =
    inr {| cmd_Stdout := theSlack; cmd_Stderr := theSlack; cmd_Stdin := theSlack |}.
Proof.
  split.
  - exact (proj1 (proj1 (proj2 (main_streams_by_mode
                    {| doTee := true; doRead := true; doWrite := false |}
                    "bash" ["-i"])) eq_refl)).
  - exact (proj2 (proj2 (proj2 (proj2 (main_streams_by_mode
                    {| doTee := false; doRead := false; doWrite := false |}
                    "bash" ["-i"]))) eq_refl eq_refl eq_refl)).
Defined.

(** ** Lazy initialisation and successive writes *)

Lemma Slack_init_sets_broker (slack : Service) (s0 s : Slack) (w w' : World) :
  Slack_init slack s0 w = Ret ((s, None), w') -> is_Some (sl_broker s).
Proof.
  unfold Slack_init, bind, ret.
  destruct (sl_broker s0) as [i|] eqn:Hb.
  { intros H. injection H as <- _. rewrite Hb. eauto. }
  destruct (ChannelsList _) as [channels|e0]; [|discriminate].
  cbn [sl_channelID sl_Channel set_channelID].
  destruct (String.eqb _ EmptyString); [discriminate|].
  destruct (RunMethod _ _) as [authBuf|e0]; [|discriminate].
  destruct (Unmarshal _ _) as [UserID decodeErr].
  destruct (RTMStart _) as [br|e0]; [|discriminate].
  unfold NewRTMBroker, RTMBroker_Connect. cbn.
  rewrite list_lookup_middle by reflexivity.
  destruct (connectAnswer br); [discriminate|].
  intros H. injection H as <- _. cbn. eauto.
Qed.

(** X14: lazy initialisation equals construction.  Whenever [New] returns
    a [Slack], a [Write] on the not yet initialised value with the same
    URL, token and channel name does exactly what that [Write] does on the
    [Slack] that [New] returned: it builds the same binding and session
    and publishes the payload once. *)
Theorem first_Write_constructs_like_New (slack : Service)
    (url token channel : string) (s : Slack) (p : list byte) (w w' : World) :
  New slack url token channel w = Ret ((Some s, None), w') ->
  Slack_Write slack
    {| URL := url; Token := token; sl_Channel := channel;
       sl_channelID := EmptyString; sl_selfUserID := EmptyString;
       sl_broker := None; readPipeReader := None; readPipeWriter := None |} p w =
  Slack_Write slack s p w'.
Proof.
  unfold New, bind. intros H.
  destruct (Slack_init slack _ w) as [[[s1 e1] w1]|] eqn:Hi; [|discriminate H].
  destruct e1 as [e1|]; [discriminate H|].
  injection H as -> ->.
  destruct (Slack_init_sets_broker slack _ s w w' Hi) as [i Hb].
  unfold Slack_Write, Slack_initWrite, bind. rewrite Hi.
  unfold Slack_init, ret. cbn. repeat rewrite Hb. reflexivity.
Qed.

Lemma first_Write_constructs_like_New_witness :
  Slack_Write (fun _ _ => sampleClient) literalSlack (list_byte_of_string "reply")
    emptyWorld =
  Slack_Write (fun _ _ => sampleClient)
    (slackOf EmptyString "token" "general" sampleCommon)
    (list_byte_of_string "reply") {| brokers := [sampleSession]; pipes := [] |}.
Proof.
  apply (first_Write_constructs_like_New (fun _ _ => sampleClient)
           EmptyString "token" "general"
           (slackOf EmptyString "token" "general" sampleCommon)
           (list_byte_of_string "reply") emptyWorld
           {| brokers := [sampleSession]; pipes := [] |}).
  reflexivity.
Defined.

(** X15: every [Write] is a message of its own.  Two writes on a writer
    issue two publishes, in call order, each with its own payload as text;
    the second is issued whether or not the first failed, and the payloads
    are never joined into one message. *)
Theorem two_writes_publish_two_messages (c : readerWriterCommon) (i : ptr)
    (br : RTMBroker) (w : World) (p1 p2 : list byte) :
  broker c = Some i ->
  brokers w !! i = Some br ->
  exists r1 w1 r2 w2 br2,
    Writer_Write {| w_common := Some c |} p1 w = Ret (r1, w1) /\
    Writer_Write {| w_common := Some c |} p2 w1 = Ret (r2, w2) /\
    brokers w2 !! i = Some br2 /\
    publishCalls br2 =
      publishCalls br ++ [outgoing (channelID c) p1; outgoing (channelID c) p2] /\
    closeCalls br2 = closeCalls br /\
    pipes w2 = pipes w.
Proof.
  intros Hc Hb.
  assert (Hi : i < length (brokers w)) by (eapply lookup_lt_Some, Hb).
  unfold Writer_Write, bind. cbn [w_common]. rewrite Hc.
  rewrite (RTMBroker_Publish_at i br _ w Hb).
  set (m1 := outgoing (channelID c) p1).
  set (m2 := outgoing (channelID c) p2).
  set (w1 := {| brokers := <[i := notePublish br m1]> (brokers w); pipes := pipes w |}).
  assert (Hb1 : brokers w1 !! i = Some (notePublish br m1))
    by (apply list_lookup_insert_eq, Hi).
  assert (H2 : exists r2,
             (err <- RTMBroker_Publish (Some i) m2 ;;
              match err with
              | Some err0 => ret (0, Some err0)
              | None => ret (length p2, None)
              end) w1 =
             Ret (r2, {| brokers := <[i := notePublish (notePublish br m1) m2]>
                                      (brokers w1);
                         pipes := pipes w1 |})).
  { unfold bind. rewrite (RTMBroker_Publish_at i _ m2 w1 Hb1).
    destruct (publishAnswer _ _ _ m2); eexists; reflexivity. }
  destruct H2 as [r2 H2]. unfold bind in H2.
  destruct (publishAnswer br (publishCalls br) (closeCalls br) m1);
    (eexists _, w1, r2,
       {| brokers := <[i := notePublish (notePublish br m1) m2]> (brokers w1);
          pipes := pipes w1 |},
       (notePublish (notePublish br m1) m2);
     split; [reflexivity|]; split; [exact H2|]; split;
     [apply list_lookup_insert_eq; unfold w1; cbn [brokers];
      rewrite length_insert; exact Hi|];
     split; [cbn; rewrite <- app_assoc; reflexivity|]; split; reflexivity).
Qed.

Lemma two_writes_publish_two_messages_witness :
  exists r1 w1 r2 w2 br2,
    Writer_Write {| w_common := Some sampleCommon |} (list_byte_of_string "a")
      sampleWorld = Ret (r1, w1) /\
    Writer_Write {| w_common := Some sampleCommon |} (list_byte_of_string "b") w1
      = Ret (r2, w2) /\
    brokers w2 !! 0 = Some br2 /\
    publishCalls br2 =
      [] ++ [outgoing "general-id" (list_byte_of_string "a");
             outgoing "general-id" (list_byte_of_string "b")] /\
    closeCalls br2 = 0 /\
    pipes w2 = [newPipe].
Proof.
  exact (two_writes_publish_two_messages sampleCommon 0 sampleSession sampleWorld
           (list_byte_of_string "a") (list_byte_of_string "b") eq_refl eq_refl).
Defined.
